(** * Tag reconciliation and status probes of the AWS provider

    A shallow embedding of
    - [internal/service/firehose/status.go]: the status probes
      [statusDeliveryStream] and [statusDeliveryStreamEncryptionConfiguration];
    - the generated tag helpers [ListTags], [Tags], [KeyValueTags] and
      [UpdateTags] of the same file;
    together with the parts of the [internal/tags] and [tfresource] packages
    and of the plugin SDK's wait loop that these functions rely on. *)

From Stdlib Require Import String Ascii List Arith Lia.
From stdpp Require Import base option list strings gmap fin_maps fin_sets.

Open Scope string_scope.

(** ** Pointers and errors *)

(** [aws.String] and [aws.StringValue]: a [*string] is an [option string]. *)
Module aws.

Definition String (s : string) : option string := Some s.

Definition StringValue (p : option string) : string :=
  match p with
  | Some s => s
  | None => ""
  end.

Definition StringSlice (l : list string) : list (option string) :=
  map String l.

End aws.

(** Go [error] values.  [errorString] stands for any leaf error of the
    transport, [NotFoundError] for [resource.NotFoundError], and
    [wrapError msg err] for the result of [fmt.Errorf] with a [%w] verb,
    which keeps the wrapped error reachable through [Unwrap]. *)
Inductive error : Type :=
| errorString (msg : string)
| NotFoundError (msg : string)
| wrapError (msg : string) (err : error).

Definition Error (e : error) : string :=
  match e with
  | errorString msg => msg
  | NotFoundError msg => msg
  | wrapError msg _ => msg
  end.

Definition Unwrap (e : error) : option error :=
  match e with
  | wrapError _ err => Some err
  | _ => None
  end.

(** ** The tag set ([internal/tags]) *)

(** A service tag as the SDK has it: two [*string] fields. *)
Record Tag : Type := mkTag { Key : option string; Value : option string }.

Module tftags.

(** The data model's TagSet: string keys, string values, unique keys. *)
Abbreviation KeyValueTags := (gmap string string).

(** The argument of [New] is an [interface{}]; these are the shapes the
    callers of this file hand over. *)
Inductive TagsMap : Type :=
| NilMap
| StringMap (m : gmap string string)
| StringPtrMap (m : gmap string (option string)).

(** Modelled from the spec: [tftags.New] is part of [internal/tags], which
    is not among the sources.  It builds the TagSet of the data model
    (string to string); a nil value pointer reads as the empty string, as
    [aws.StringValue] reads it. *)
Definition New (i : TagsMap) : KeyValueTags :=
  match i with
  | NilMap => ∅
  | StringMap m => m
  | StringPtrMap m => aws.StringValue <$> m
  end.

(** Modelled from the spec: [Removed] of [internal/tags];
    [Removed = keys(old) - keys(new)], carried with the old values. *)
Definition Removed (tags newTags : KeyValueTags) : KeyValueTags :=
  filter (λ kv, newTags !! kv.1 = None) tags.

(** Modelled from the spec: [Updated] of [internal/tags];
    [Updated = {k: new[k] for k in new if old[k] != new[k] or k not in old}]. *)
Definition Updated (tags newTags : KeyValueTags) : KeyValueTags :=
  filter (λ kv, tags !! kv.1 ≠ Some kv.2) newTags.

(** Modelled from the spec: the reserved key prefix is configuration of
    [internal/tags]; the filtered view [IgnoreAws] excludes the keys that
    carry it.  The prefix is an argument of the model. *)
Definition IgnoreAws (AwsTagKeyPrefix : string) (tags : KeyValueTags)
  : KeyValueTags :=
  filter (λ kv, String.prefix AwsTagKeyPrefix kv.1 = false) tags.

(** Modelled from the spec: [Keys] and [Map] of [internal/tags].  Go ranges
    over a map in an unspecified order; the model enumerates in the order of
    [map_to_list], and the theorems below speak of the carried sets. *)
Definition Keys (tags : KeyValueTags) : list string :=
  (map_to_list tags).*1.

Definition Map (tags : KeyValueTags) : gmap string string := tags.

End tftags.

(** ** [[]*SERVICE.Tag] handling *)

(** [Tags] returns the service tags: one [Tag] per entry of [tags.Map()]. *)
Definition Tags (tags : tftags.KeyValueTags) : list Tag :=
  map (λ kv, mkTag (aws.String kv.1) (aws.String kv.2))
      (map_to_list (tftags.Map tags)).

(** [KeyValueTags] creates the tag set from service tags: the loop
    [m[aws.StringValue(tag.Key)] = tag.Value] over the slice, left to right,
    followed by [tftags.New(m)]. *)
Definition KeyValueTags_loop (tags : list Tag)
  : gmap string (option string) :=
  fold_left (λ m tag, <[aws.StringValue (Key tag) := Value tag]> m) tags ∅.

Definition KeyValueTags (tags : list Tag) : tftags.KeyValueTags :=
  tftags.New (tftags.StringPtrMap (KeyValueTags_loop tags)).

(** ** The remote tag API *)

Module ListTagsForResourceInput.
Record t : Type := mk { ResourceARN : option string }.
End ListTagsForResourceInput.

Module ListTagsForResourceOutput.
Record t : Type := mk { Tags : list Tag }.
End ListTagsForResourceOutput.

Module UntagResourceInput.
Record t : Type := mk { ResourceARN : option string;
                        TagKeys : list (option string) }.
End UntagResourceInput.

Module TagResourceInput.
Record t : Type := mk { ResourceARN : option string; Tags : list Tag }.
End TagResourceInput.

(** A program that talks to the service: it either returns, or issues one
    of the three SDK calls and continues with the reply.  The reply of
    [ListTagsForResource] is the pair [(output, err)] (the SDK hands back a
    non-nil output whenever [err] is nil); the other two calls are used for
    their [err] only. *)
Inductive Remote (A : Type) : Type :=
| Ret (a : A)
| ListTagsForResource (input : ListTagsForResourceInput.t)
    (k : ListTagsForResourceOutput.t * option error → Remote A)
| UntagResource (input : UntagResourceInput.t) (k : option error → Remote A)
| TagResource (input : TagResourceInput.t) (k : option error → Remote A).

Arguments Ret {A} a.
Arguments ListTagsForResource {A} input k.
Arguments UntagResource {A} input k.
Arguments TagResource {A} input k.

Fixpoint Remote_bind {A B : Type} (f : A → Remote B) (m : Remote A)
  : Remote B :=
  match m with
  | Ret a => f a
  | ListTagsForResource input k =>
      ListTagsForResource input (λ r, Remote_bind f (k r))
  | UntagResource input k => UntagResource input (λ r, Remote_bind f (k r))
  | TagResource input k => TagResource input (λ r, Remote_bind f (k r))
  end.

#[export] Instance Remote_ret : MRet Remote := λ A a, Ret a.
#[export] Instance Remote_mbind : MBind Remote := λ A B f m, Remote_bind f m.

(** The remote calls a program issued, in the order it issued them. *)
Inductive Call : Type :=
| CallListTags (input : ListTagsForResourceInput.t)
| CallUntag (input : UntagResourceInput.t)
| CallTag (input : TagResourceInput.t).

(** A connection: what the service answers to each call, and how the call
    changes the service's state.  Nothing is assumed of it: a call may fail,
    and may have changed the state when it fails. *)
Record Conn (S : Type) : Type := mkConn {
  doListTagsForResource :
    ListTagsForResourceInput.t → S →
    (ListTagsForResourceOutput.t * option error) * S;
  doUntagResource : UntagResourceInput.t → S → option error * S;
  doTagResource : TagResourceInput.t → S → option error * S
}.

Arguments doListTagsForResource {S} _ _ _.
Arguments doUntagResource {S} _ _ _.
Arguments doTagResource {S} _ _ _.

(** Running a program against a connection: its result, the final state of
    the service, and the calls issued. *)
Fixpoint run {S A : Type} (conn : Conn S) (m : Remote A) (σ : S)
  : A * S * list Call :=
  match m with
  | Ret a => (a, σ, [])
  | ListTagsForResource input k =>
      let '(r, σ1) := doListTagsForResource conn input σ in
      let '(a, σ2, calls) := run conn (k r) σ1 in
      (a, σ2, CallListTags input :: calls)
  | UntagResource input k =>
      let '(r, σ1) := doUntagResource conn input σ in
      let '(a, σ2, calls) := run conn (k r) σ1 in
      (a, σ2, CallUntag input :: calls)
  | TagResource input k =>
      let '(r, σ1) := doTagResource conn input σ in
      let '(a, σ2, calls) := run conn (k r) σ1 in
      (a, σ2, CallTag input :: calls)
  end.

(** ** The generated tag functions *)

(** [ListTags] lists the service tags of [identifier]. *)
Definition ListTags (identifier : string)
  : Remote (tftags.KeyValueTags * option error) :=
  let input := ListTagsForResourceInput.mk (aws.String identifier) in
  ListTagsForResource input (λ '(output, err),
    match err with
    | Some e => Ret (tftags.New tftags.NilMap, Some e)
    | None => Ret (KeyValueTags (ListTagsForResourceOutput.Tags output), None)
    end).

(** The two requests [UpdateTags] builds. *)
Definition untagResourceInput (AwsTagKeyPrefix identifier : string)
    (removedTags : tftags.KeyValueTags) : UntagResourceInput.t :=
  UntagResourceInput.mk
    (aws.String identifier)
    (aws.StringSlice
       (tftags.Keys (tftags.IgnoreAws AwsTagKeyPrefix removedTags))).

Definition tagResourceInput (AwsTagKeyPrefix identifier : string)
    (updatedTags : tftags.KeyValueTags) : TagResourceInput.t :=
  TagResourceInput.mk
    (aws.String identifier)
    (Tags (tftags.IgnoreAws AwsTagKeyPrefix updatedTags)).

(** [fmt.Errorf("error untagging resource (%s): %w", identifier, err)] and
    its sibling of the tag phase. *)
Definition untagError (identifier : string) (err : error) : error :=
  wrapError ("error untagging resource (" ++ identifier ++ "): " ++ Error err)
            err.

Definition tagError (identifier : string) (err : error) : error :=
  wrapError ("error tagging resource (" ++ identifier ++ "): " ++ Error err)
            err.

(** [UpdateTags] updates the service tags of [identifier].  The first bind
    is the untag block, whose [return] leaves the function; the second is
    the tag block. *)
Definition UpdateTags (AwsTagKeyPrefix identifier : string)
    (oldTagsMap newTagsMap : tftags.TagsMap) : Remote (option error) :=
  let oldTags := tftags.New oldTagsMap in
  let newTags := tftags.New newTagsMap in
  returned ←
    (let removedTags := tftags.Removed oldTags newTags in
     if (0 <? size removedTags)%nat then
       let input := untagResourceInput AwsTagKeyPrefix identifier removedTags in
       UntagResource input (λ err,
         match err with
         | Some e => Ret (Some (untagError identifier e))
         | None => Ret None
         end)
     else Ret None);
  match returned with
  | Some e => Ret (Some e)
  | None =>
      let updatedTags := tftags.Updated oldTags newTags in
      if (0 <? size updatedTags)%nat then
        let input := tagResourceInput AwsTagKeyPrefix identifier updatedTags in
        TagResource input (λ err,
          match err with
          | Some e => Ret (Some (tagError identifier e))
          | None => Ret None
          end)
      else Ret None
  end.

(** ** A remote tag store *)

(** The service as a store of tag sets by identifier, in which the untag
    call removes exactly the given keys, the tag call upserts exactly the
    given pairs, and no call fails. *)
Abbreviation Store := (gmap string (gmap string string)).

Definition stored (σ : Store) (arn : option string) : gmap string string :=
  default ∅ (σ !! aws.StringValue arn).

Definition store_conn : Conn Store := {|
  doListTagsForResource input σ :=
    let tags := stored σ (ListTagsForResourceInput.ResourceARN input) in
    (ListTagsForResourceOutput.mk
       (map (λ kv, mkTag (Some kv.1) (Some kv.2)) (map_to_list tags)),
     None, σ);
  doUntagResource input σ :=
    let arn := UntagResourceInput.ResourceARN input in
    (None,
     <[aws.StringValue arn :=
         foldr (λ k m, delete (aws.StringValue k) m) (stored σ arn)
               (UntagResourceInput.TagKeys input)]> σ);
  doTagResource input σ :=
    let arn := TagResourceInput.ResourceARN input in
    (None,
     <[aws.StringValue arn :=
         fold_left
           (λ m tag,
              <[aws.StringValue (Key tag) := aws.StringValue (Value tag)]> m)
           (TagResourceInput.Tags input) (stored σ arn)]> σ)
|}.

(** The same store behind a transport that fails the untag call with
    [untagErr], or the tag call with [tagErr], before it reaches the store. *)
Definition failing_conn (untagErr tagErr : option error) : Conn Store := {|
  doListTagsForResource := doListTagsForResource store_conn;
  doUntagResource input σ :=
    match untagErr with
    | Some e => (Some e, σ)
    | None => doUntagResource store_conn input σ
    end;
  doTagResource input σ :=
    match tagErr with
    | Some e => (Some e, σ)
    | None => doTagResource store_conn input σ
    end
|}.

(** ** Status probes *)

Module tfresource.

(** Modelled from the spec: [tfresource.NotFound] is not among the sources.
    It tells the distinguished not-found error kind from every other error:
    [err] is, or wraps, a [NotFoundError]; a nil [err] is not one. *)
Fixpoint IsNotFound (e : error) : bool :=
  match e with
  | errorString _ => false
  | NotFoundError _ => true
  | wrapError _ err => IsNotFound err
  end.

(** Modelled from the spec: [NotFound] on the Go [error] interface, whose
    nil value is [None]. *)
Definition NotFound (err : option error) : bool :=
  match err with
  | Some e => IsNotFound e
  | None => false
  end.

End tfresource.

(** The two descriptions the finders return; only the status fields are
    read here. *)
Record DeliveryStreamDescription : Type :=
  mkDeliveryStreamDescription {
    DeliveryStreamName : option string;
    DeliveryStreamStatus : option string
  }.

Record DeliveryStreamEncryptionConfiguration : Type :=
  mkDeliveryStreamEncryptionConfiguration {
    KeyARN : option string;
    Status : option string
  }.

(** The [interface{}] a probe returns as its snapshot; [None] is nil. *)
Inductive object : Type :=
| ofDeliveryStream (d : DeliveryStreamDescription)
| ofEncryptionConfiguration (c : DeliveryStreamEncryptionConfiguration).

(** A call either returns or panics (on a nil pointer). *)
Inductive outcome (A : Type) : Type :=
| Returns (a : A)
| Panics.

Arguments Returns {A} a.
Arguments Panics {A}.

(** What a [resource.StateRefreshFunc] returns. *)
Definition PollState : Type := option object * string * option error.

Section Probes.

(** The connection and the finders of package [finder] are not among the
    sources; a finder returns the Go pair [(output, err)]. *)
Variable FirehoseConn : Type.
Variable FindDeliveryStreamByName :
  FirehoseConn → string → option DeliveryStreamDescription * option error.
Variable FindDeliveryStreamEncryptionConfigurationByName :
  FirehoseConn → string →
  option DeliveryStreamEncryptionConfiguration * option error.

Definition statusDeliveryStream (conn : FirehoseConn) (name : string)
  : unit → outcome PollState :=
  λ _,
    let '(output, err) := FindDeliveryStreamByName conn name in
    if tfresource.NotFound err then Returns (None, "", None)
    else
      match err with
      | Some e => Returns (None, "", Some e)
      | None =>
          match output with
          | Some o =>
              Returns (Some (ofDeliveryStream o),
                       aws.StringValue (DeliveryStreamStatus o), None)
          | None => Panics
          end
      end.

Definition statusDeliveryStreamEncryptionConfiguration
    (conn : FirehoseConn) (name : string) : unit → outcome PollState :=
  λ _,
    let '(output, err) :=
      FindDeliveryStreamEncryptionConfigurationByName conn name in
    if tfresource.NotFound err then Returns (None, "", None)
    else
      match err with
      | Some e => Returns (None, "", Some e)
      | None =>
          match output with
          | Some o =>
              Returns (Some (ofEncryptionConfiguration o),
                       aws.StringValue (Status o), None)
          | None => Panics
          end
      end.

End Probes.

(** ** The status poller *)

Module StatusPoller.

(** Modelled from the spec: the poll loop is the plugin SDK's, and the
    waiters that configure it are not among the sources.  Section 4.2 gives
    its configuration, its states and its outputs.  Time is the loop's own
    clock, in ticks: the loop waits [MinDelay] before the first probe and
    [PollInterval] between two probes, and gives up once [MaxDuration] has
    elapsed while the status is still pending. *)
Record Config : Type := mkConfig {
  Target : list string;
  Failure : list string;
  PollInterval : nat;
  MinDelay : nat;
  MaxDuration : nat
}.

Inductive Terminal : Type :=
| OnTarget
| Failed (label : string) (err : option error)
| TimedOut.

Record Result (S : Type) : Type := mkResult {
  terminal : Terminal;
  snapshot : option object;
  probes : nat;
  elapsed : nat;
  final : S
}.

Arguments mkResult {S} _ _ _ _ _.
Arguments terminal {S} _.
Arguments snapshot {S} _.
Arguments probes {S} _.
Arguments elapsed {S} _.
Arguments final {S} _.

Definition member (label : string) (labels : list string) : bool :=
  bool_decide (label ∈ labels).

(** A status label that is neither a target nor a failure label keeps the
    poller pending. *)
Definition pending (cfg : Config) (label : string) : Prop :=
  (label ∉ Target cfg) ∧ (label ∉ Failure cfg).

Section Loop.

Variable S : Type.
Variable cfg : Config.
(** The probe reads the remote system, whose state [S] moves on between
    two calls. *)
Variable probe : S → PollState * S.

(** Modelled from the spec: the poll loop of section 4.2, one probe after
    the other.  A probe error or a failure label ends it as failed, a target
    label as success with the snapshot just fetched, and a pending label
    once the maximum duration has elapsed as timed out; otherwise the loop
    waits one interval and probes again.  [fuel] bounds the number of
    probes, [count] is the number already made and [now] the time elapsed. *)
Fixpoint poll (fuel : nat) (count now : nat) (σ : S) : option (Result S) :=
  match fuel with
  | O => None
  | Datatypes.S fuel' =>
      let '((snap, label, err), σ') := probe σ in
      let count' := Datatypes.S count in
      match err with
      | Some e => Some (mkResult (Failed label (Some e)) snap count' now σ')
      | None =>
          if member label (Target cfg) then
            Some (mkResult OnTarget snap count' now σ')
          else if member label (Failure cfg) then
            Some (mkResult (Failed label None) snap count' now σ')
          else if (MaxDuration cfg <=? now)%nat then
            Some (mkResult TimedOut snap count' now σ')
          else poll fuel' count' (now + PollInterval cfg)%nat σ'
      end
  end.

(** Modelled from the spec: the wait starts after the minimum delay, with
    no probe made yet. *)
Definition WaitForState (fuel : nat) (σ : S) : option (Result S) :=
  poll fuel 0%nat (MinDelay cfg) σ.

End Loop.

End StatusPoller.

(** ** Auxiliary definitions for the statements *)

(** The service tag of one entry, as [Tags] builds it. *)
Definition toTag (kv : string * string) : Tag :=
  mkTag (aws.String kv.1) (aws.String kv.2).

(** Whether a key carries the reserved prefix. *)
Definition reserved (AwsTagKeyPrefix key : string) : bool :=
  String.prefix AwsTagKeyPrefix key.

Section Paths.

Context {S : Type}.
Variable conn : Conn S.
Variable AwsTagKeyPrefix : string.
Variable identifier : string.

(** The requests of one reconciliation from [old] to [new]. *)
Definition untagRequest (old new : gmap string string)
  : UntagResourceInput.t :=
  untagResourceInput AwsTagKeyPrefix identifier (tftags.Removed old new).

Definition tagRequest (old new : gmap string string) : TagResourceInput.t :=
  tagResourceInput AwsTagKeyPrefix identifier (tftags.Updated old new).

(** The five paths through [UpdateTags], each with the result, the final
    state and the calls of a run that takes it from state [σ]. *)
Inductive path (old new : gmap string string) (σ : S)
  : option error * S * list Call → Prop :=
| path_noop :
    size (tftags.Removed old new) = 0 →
    size (tftags.Updated old new) = 0 →
    path old new σ (None, σ, [])
| path_tag err σ1 :
    size (tftags.Removed old new) = 0 →
    0 < size (tftags.Updated old new) →
    doTagResource conn (tagRequest old new) σ = (err, σ1) →
    path old new σ
         (tagError identifier <$> err, σ1, [CallTag (tagRequest old new)])
| path_untag_failed e σ1 :
    0 < size (tftags.Removed old new) →
    doUntagResource conn (untagRequest old new) σ = (Some e, σ1) →
    path old new σ
         (Some (untagError identifier e), σ1,
          [CallUntag (untagRequest old new)])
| path_untag σ1 :
    0 < size (tftags.Removed old new) →
    size (tftags.Updated old new) = 0 →
    doUntagResource conn (untagRequest old new) σ = (None, σ1) →
    path old new σ (None, σ1, [CallUntag (untagRequest old new)])
| path_untag_tag σ1 err σ2 :
    0 < size (tftags.Removed old new) →
    0 < size (tftags.Updated old new) →
    doUntagResource conn (untagRequest old new) σ = (None, σ1) →
    doTagResource conn (tagRequest old new) σ1 = (err, σ2) →
    path old new σ
         (tagError identifier <$> err, σ2,
          [CallUntag (untagRequest old new); CallTag (tagRequest old new)]).

(** The state in which the tag phase starts: [σ] itself when there is
    nothing to untag, the state the successful untag call left otherwise. *)
Definition tagPhaseFrom (old new : gmap string string) (σ σ1 : S) : Prop :=
  (size (tftags.Removed old new) = 0 ∧ σ1 = σ) ∨
  (0 < size (tftags.Removed old new) ∧
   doUntagResource conn (untagRequest old new) σ = (None, σ1)).

End Paths.

(** Reconcile, then read the tags back. *)
Definition reconcileThenList (AwsTagKeyPrefix identifier : string)
    (old new : gmap string string)
  : Remote (option error * (tftags.KeyValueTags * option error)) :=
  err ← UpdateTags AwsTagKeyPrefix identifier
        (tftags.StringMap old) (tftags.StringMap new);
  tags ← ListTags identifier;
  mret (err, tags).

(** ** Scenarios *)

Module Scenario.

(** The prefix of the keys the service reserves for itself. *)
Definition AwsTagKeyPrefix : string := "aws:".

Definition arn : string := "arn:aws:firehose:us-east-1:123456789012:s".

(** The two scenarios of the testable properties. *)
Definition env_dev : gmap string string := {[ "env" := "dev" ]}.
Definition env_prod_team : gmap string string :=
  {[ "env" := "prod"; "team" := "x" ]}.
Definition env_dev_temp : gmap string string :=
  {[ "env" := "dev"; "temp" := "1" ]}.

(** Tag sets with a key under the reserved prefix. *)
Definition stack_only : gmap string string :=
  {[ "aws:cloudformation:stack-name" := "s" ]}.
Definition env_dev_stack : gmap string string :=
  {[ "env" := "dev"; "aws:cloudformation:stack-name" := "s" ]}.
Definition team_created_by : gmap string string :=
  {[ "team" := "x"; "aws:createdBy" := "me" ]}.
Definition created_by (v : string) : gmap string string :=
  {[ "aws:createdBy" := v ]}.
Definition owner (v : string) : gmap string string :=
  {[ "env" := "dev"; "owner" := v ]}.

Definition run_store (old new : gmap string string)
  : option error * Store * list Call :=
  run store_conn
      (UpdateTags AwsTagKeyPrefix arn
                  (tftags.StringMap old) (tftags.StringMap new))
      {[ arn := old ]}.

Definition throttled : error := errorString "ThrottlingException".

(** A delivery stream that is being created during the first two probes
    and active from the third on; the state counts the probes. *)
Definition active : object :=
  ofDeliveryStream (mkDeliveryStreamDescription (Some "s") (Some "ACTIVE")).

Definition creating_then_active (n : nat) : PollState * nat :=
  match n with
  | 0 | 1 => (None, "CREATING", None, Datatypes.S n)
  | _ => (Some active, "ACTIVE", None, Datatypes.S n)
  end.

Definition waitConfig : StatusPoller.Config :=
  StatusPoller.mkConfig ["ACTIVE"] ["CREATING_FAILED"] 1 0 10.

(** Finders over a set of existing stream names. *)
Definition findStream (existing : list string) (name : string)
  : option DeliveryStreamDescription * option error :=
  if bool_decide (name ∈ existing)
  then (Some (mkDeliveryStreamDescription (Some name) (Some "ACTIVE")), None)
  else (None, Some (wrapError "finding stream" (NotFoundError "not found"))).

Definition findEncryption (existing : list string) (name : string)
  : option DeliveryStreamEncryptionConfiguration * option error :=
  if bool_decide (name ∈ existing)
  then (Some (mkDeliveryStreamEncryptionConfiguration None (Some "ENABLED")),
        None)
  else (None, Some (NotFoundError "not found")).

End Scenario.

(** ** Further scenarios *)

Module Drift.

(** Remote tags that have drifted from the last-known state
    [Scenario.env_dev_temp]: [env] was changed, [extra] was added by
    someone else, and the service set a key of its own. *)
Definition remote : gmap string string :=
  {[ "env" := "qa"; "temp" := "1"; "extra" := "1";
     "aws:createdBy" := "me" ]}.

Definition run_drift : option error * Store * list Call :=
  run store_conn
      (UpdateTags Scenario.AwsTagKeyPrefix Scenario.arn
         (tftags.StringMap Scenario.env_dev_temp)
         (tftags.StringMap Scenario.env_prod_team))
      (<[Scenario.arn := remote]> ∅).

(** A desired state that keeps [env], drops [temp] and adds [team]. *)
Definition env_dev_team : gmap string string :=
  {[ "env" := "dev"; "team" := "x" ]}.

(** A finder that returns neither a stream nor an error. *)
Definition findNothing (conn : unit) (name : string)
  : option DeliveryStreamDescription * option error :=
  (None, None).

Definition findNoEncryption (conn : unit) (name : string)
  : option DeliveryStreamEncryptionConfiguration * option error :=
  (None, None).

End Drift.

(** ** Configuration values and the SageMaker endpoint configuration

    [aws/resource_aws_sagemaker_endpoint_configuration.go]: the converters
    between the configuration ([[]interface{}] of
    [map[string]interface{}]) and the API structs of the capture options
    and of the asynchronous inference configuration. *)

(** A Go [interface{}] as the converters meet it, with its dynamic type:
    [[]interface{}] is [VList] and [[]map[string]interface{}] is [VMaps],
    two different dynamic types, as are [int] and [int64]. *)
#[warnings="-register-all"] Inductive value : Type :=
| VString (s : string)
| VInt (n : Z)
| VInt64 (n : Z)
| VBool (b : bool)
| VList (l : list value)
| VMap (m : gmap string value)
| VMaps (l : list (gmap string value)).

Definition outcome_bind {A B : Type} (f : A → outcome B) (m : outcome A)
  : outcome B :=
  match m with
  | Returns a => f a
  | Panics => Panics
  end.

#[export] Instance outcome_ret : MRet outcome := λ A a, Returns a.
#[export] Instance outcome_mbind : MBind outcome :=
  λ A B f m, outcome_bind f m.

(** Type assertions [v.(T)] on the result of a map index, which is nil
    when the key is missing; an assertion on nil or on another dynamic
    type panics. *)
Definition assertString (v : option value) : outcome string :=
  match v with
  | Some (VString s) => Returns s
  | _ => Panics
  end.

Definition assertInt (v : option value) : outcome Z :=
  match v with
  | Some (VInt n) => Returns n
  | _ => Panics
  end.

Definition assertList (v : option value) : outcome (list value) :=
  match v with
  | Some (VList l) => Returns l
  | _ => Panics
  end.

Definition assertMap (v : option value) : outcome (gmap string value) :=
  match v with
  | Some (VMap m) => Returns m
  | _ => Panics
  end.

Module sagemaker.

(** The API structs; every field is a pointer.  The SDK's slices hold no
    nil pointer. *)
Record CaptureOption : Type := mkCaptureOption {
  CaptureMode : option string
}.

Record AsyncInferenceNotificationConfig : Type :=
  mkAsyncInferenceNotificationConfig {
    ErrorTopic : option string;
    SuccessTopic : option string
  }.

Record AsyncInferenceOutputConfig : Type := mkAsyncInferenceOutputConfig {
  KmsKeyId : option string;
  NotificationConfig : option AsyncInferenceNotificationConfig;
  S3OutputPath : option string
}.

Record AsyncInferenceClientConfig : Type := mkAsyncInferenceClientConfig {
  MaxConcurrentInvocationsPerInstance : option Z
}.

Record AsyncInferenceConfig : Type := mkAsyncInferenceConfig {
  ClientConfig : option AsyncInferenceClientConfig;
  OutputConfig : option AsyncInferenceOutputConfig
}.

End sagemaker.

(** [for _, lRaw := range configured]: one capture option per element. *)
Fixpoint expandSagemakerCaptureOptions (configured : list value)
  : outcome (list sagemaker.CaptureOption) :=
  match configured with
  | [] => Returns []
  | lRaw :: rest =>
      data ← assertMap (Some lRaw);
      mode ← assertString (data !! "capture_mode");
      containers ← expandSagemakerCaptureOptions rest;
      Returns (sagemaker.mkCaptureOption (aws.String mode) :: containers)
  end.

Definition flattenSagemakerCaptureOptions (l : list sagemaker.CaptureOption)
  : list (gmap string value) :=
  map (λ lRaw,
         <["capture_mode" :=
             VString (aws.StringValue (sagemaker.CaptureMode lRaw))]> ∅)
      l.

Definition expandSagemakerEndpointConfigNotificationConfig
    (configured : list value)
  : outcome (option sagemaker.AsyncInferenceNotificationConfig) :=
  match configured with
  | [] => Returns None
  | first :: _ =>
      m ← assertMap (Some first);
      errorTopic ←
        match m !! "error_topic" with
        | Some v => s ← assertString (Some v); Returns (aws.String s)
        | None => Returns None
        end;
      successTopic ←
        match m !! "success_topic" with
        | Some v => s ← assertString (Some v); Returns (aws.String s)
        | None => Returns None
        end;
      Returns (Some (sagemaker.mkAsyncInferenceNotificationConfig
                       errorTopic successTopic))
  end.

Definition expandSagemakerEndpointConfigClientConfig
    (configured : list value)
  : outcome (option sagemaker.AsyncInferenceClientConfig) :=
  match configured with
  | [] => Returns None
  | first :: _ =>
      m ← assertMap (Some first);
      maxConcurrent ←
        match m !! "max_concurrent_invocations_per_instance" with
        | Some v => n ← assertInt (Some v); Returns (Some n)
        | None => Returns None
        end;
      Returns (Some (sagemaker.mkAsyncInferenceClientConfig maxConcurrent))
  end.

Definition expandSagemakerEndpointConfigOutputConfig
    (configured : list value)
  : outcome (option sagemaker.AsyncInferenceOutputConfig) :=
  match configured with
  | [] => Returns None
  | first :: _ =>
      m ← assertMap (Some first);
      s3OutputPath ← assertString (m !! "s3_output_path");
      kmsKeyId ←
        match m !! "kms_key_id" with
        | Some v => s ← assertString (Some v); Returns (aws.String s)
        | None => Returns None
        end;
      notificationConfig ←
        match m !! "notification_config" with
        | Some v =>
            l ← assertList (Some v);
            if (0 <? length l)%nat
            then expandSagemakerEndpointConfigNotificationConfig l
            else Returns None
        | None => Returns None
        end;
      Returns (Some (sagemaker.mkAsyncInferenceOutputConfig
                       kmsKeyId notificationConfig (aws.String s3OutputPath)))
  end.

Definition expandSagemakerEndpointConfigAsyncInferenceConfig
    (configured : list value)
  : outcome (option sagemaker.AsyncInferenceConfig) :=
  match configured with
  | [] => Returns None
  | first :: _ =>
      m ← assertMap (Some first);
      clientConfig ←
        match m !! "client_config" with
        | Some v =>
            l ← assertList (Some v);
            if (0 <? length l)%nat
            then expandSagemakerEndpointConfigClientConfig l
            else Returns None
        | None => Returns None
        end;
      outputConfig ←
        match m !! "output_config" with
        | Some v =>
            l ← assertList (Some v);
            if (0 <? length l)%nat
            then expandSagemakerEndpointConfigOutputConfig l
            else Returns None
        | None => Returns None
        end;
      Returns (Some (sagemaker.mkAsyncInferenceConfig
                       clientConfig outputConfig))
  end.

(** [if p != nil { cfg[key] = v }]. *)
Definition setIfNotNil {A : Type} (p : option A) (key : string)
    (v : A → value) (cfg : gmap string value) : gmap string value :=
  match p with
  | Some a => <[key := v a]> cfg
  | None => cfg
  end.

Definition flattenSagemakerEndpointConfigNotificationConfig
    (config : option sagemaker.AsyncInferenceNotificationConfig)
  : list (gmap string value) :=
  match config with
  | None => []
  | Some config =>
      let cfg := ∅ in
      let cfg :=
        setIfNotNil (sagemaker.ErrorTopic config) "error_topic"
          (λ _, VString (aws.StringValue (sagemaker.ErrorTopic config))) cfg in
      let cfg :=
        setIfNotNil (sagemaker.SuccessTopic config) "success_topic"
          (λ _, VString (aws.StringValue (sagemaker.SuccessTopic config)))
          cfg in
      [cfg]
  end.

Definition flattenSagemakerEndpointConfigClientConfig
    (config : option sagemaker.AsyncInferenceClientConfig)
  : list (gmap string value) :=
  match config with
  | None => []
  | Some config =>
      let cfg := ∅ in
      let cfg :=
        setIfNotNil (sagemaker.MaxConcurrentInvocationsPerInstance config)
          "max_concurrent_invocations_per_instance"
          (λ n, VInt64 n) cfg in
      [cfg]
  end.

Definition flattenSagemakerEndpointConfigOutputConfig
    (config : option sagemaker.AsyncInferenceOutputConfig)
  : list (gmap string value) :=
  match config with
  | None => []
  | Some config =>
      let cfg :=
        <["s3_output_path" :=
            VString (aws.StringValue (sagemaker.S3OutputPath config))]> ∅ in
      let cfg :=
        setIfNotNil (sagemaker.KmsKeyId config) "kms_key_id"
          (λ _, VString (aws.StringValue (sagemaker.KmsKeyId config))) cfg in
      let cfg :=
        setIfNotNil (sagemaker.NotificationConfig config)
          "notification_config"
          (λ _, VMaps (flattenSagemakerEndpointConfigNotificationConfig
                         (sagemaker.NotificationConfig config))) cfg in
      [cfg]
  end.

Definition flattenSagemakerEndpointConfigAsyncInferenceConfig
    (config : option sagemaker.AsyncInferenceConfig)
  : list (gmap string value) :=
  match config with
  | None => []
  | Some config =>
      let cfg := ∅ in
      let cfg :=
        setIfNotNil (sagemaker.ClientConfig config) "client_config"
          (λ _, VMaps (flattenSagemakerEndpointConfigClientConfig
                         (sagemaker.ClientConfig config))) cfg in
      let cfg :=
        setIfNotNil (sagemaker.OutputConfig config) "output_config"
          (λ _, VMaps (flattenSagemakerEndpointConfigOutputConfig
                         (sagemaker.OutputConfig config))) cfg in
      [cfg]
  end.

(** A slice of maps seen as a slice of interfaces, element by element. *)
Definition asInterfaces (l : list (gmap string value)) : list value :=
  map VMap l.

(** The output location of an asynchronous inference configuration, which
    the API requires, is set. *)
Definition hasOutputPath (config : option sagemaker.AsyncInferenceConfig)
  : Prop :=
  match config with
  | Some config =>
      match sagemaker.OutputConfig config with
      | Some output => is_Some (sagemaker.S3OutputPath output)
      | None => True
      end
  | None => True
  end.

(** Configurations used to exercise the converters. *)
Module Configured.

Definition sagemaker_tags : list Tag :=
  [ mkTag (Some "env") (Some "dev"); mkTag (Some "team") (Some "x") ].

Definition notification : gmap string value :=
  {[ "error_topic" := VString "arn:aws:sns:us-east-1:1:errors";
     "retries" := VInt 3 ]}.

Definition notificationConfig : sagemaker.AsyncInferenceNotificationConfig :=
  sagemaker.mkAsyncInferenceNotificationConfig
    (Some "arn:aws:sns:us-east-1:1:errors") None.

Definition captureOptions : list sagemaker.CaptureOption :=
  [ sagemaker.mkCaptureOption (Some "Input");
    sagemaker.mkCaptureOption (Some "Output") ].

Definition captureBlock : gmap string value :=
  {[ "capture_mode" := VString "Input"; "sampling" := VInt 50 ]}.

Definition asyncInferenceConfig : sagemaker.AsyncInferenceConfig :=
  sagemaker.mkAsyncInferenceConfig
    (Some (sagemaker.mkAsyncInferenceClientConfig (Some 4%Z)))
    (Some (sagemaker.mkAsyncInferenceOutputConfig
             None (Some notificationConfig) (Some "s3://bucket/out"))).

Definition asyncInference : gmap string value :=
  {[ "output_config" :=
       VList [VMap {[ "s3_output_path" := VString "s3://bucket/out" ]}] ]}.

Definition asyncInferenceExpanded : option sagemaker.AsyncInferenceConfig :=
  Some (sagemaker.mkAsyncInferenceConfig None
          (Some (sagemaker.mkAsyncInferenceOutputConfig
                   None None (Some "s3://bucket/out")))).

End Configured.

(** * Properties *)

(** ** Tag conversion *)

Section Conversion.

Implicit Types (kvs : list (string * string)) (t : gmap string string).

Lemma Tags_toTag t : Tags t = map toTag (map_to_list t).
Proof. reflexivity. Qed.

Lemma KeyValueTags_loop_from kvs (m : gmap string (option string)) :
  fold_left (λ m tag, <[aws.StringValue (Key tag) := Value tag]> m)
            (map toTag kvs) m
  = list_to_map (prod_map id Some <$> rev kvs) ∪ m.
Proof.
  revert m. induction kvs as [|[k v] kvs IH]; intros m; simpl.
  - by rewrite (left_id_L ∅ (∪)).
  - rewrite IH, fmap_app, list_to_map_app. simpl.
    rewrite insert_empty, <-(assoc_L (∪)), <-insert_union_singleton_l.
    reflexivity.
Qed.

Lemma KeyValueTags_toTag kvs :
  KeyValueTags (map toTag kvs) = list_to_map (rev kvs).
Proof.
  unfold KeyValueTags, KeyValueTags_loop. rewrite KeyValueTags_loop_from.
  rewrite (right_id_L ∅ (∪)), list_to_map_fmap. simpl.
  rewrite <-map_fmap_compose. apply map_fmap_id.
Qed.

Lemma toTag_inj : Inj (=) (=) toTag.
Proof. intros [k v] [k' v'] H. by inversion H. Qed.

Lemma KeyValueTags_Permutation t (l : list Tag) :
  l ≡ₚ Tags t → KeyValueTags l = t.
Proof.
  rewrite Tags_toTag. intros Hl.
  apply Permutation_map_inv in Hl as (kvs & -> & Hkvs).
  rewrite KeyValueTags_toTag.
  rewrite <-(list_to_map_to_list t). symmetry.
  apply list_to_map_proper; [apply NoDup_fst_map_to_list|].
  rewrite Hkvs. apply Permutation_rev.
Qed.

End Conversion.

(** ** The derived tag sets *)

Section TagSets.

Implicit Types (old new m : gmap string string) (k v p : string).

Lemma Removed_lookup_Some old new k v :
  tftags.Removed old new !! k = Some v ↔ old !! k = Some v ∧ new !! k = None.
Proof. unfold tftags.Removed. by rewrite map_lookup_filter_Some. Qed.

Lemma Updated_lookup_Some old new k v :
  tftags.Updated old new !! k = Some v ↔
  new !! k = Some v ∧ old !! k ≠ Some v.
Proof. unfold tftags.Updated. by rewrite map_lookup_filter_Some. Qed.

Lemma IgnoreAws_lookup_Some p m k v :
  tftags.IgnoreAws p m !! k = Some v ↔ m !! k = Some v ∧ reserved p k = false.
Proof. unfold tftags.IgnoreAws. by rewrite map_lookup_filter_Some. Qed.

Lemma Removed_same m : tftags.Removed m m = ∅.
Proof.
  apply map_empty. intros k. apply eq_None_not_Some. intros [v Hv].
  apply Removed_lookup_Some in Hv as [Hv Hn]. congruence.
Qed.

Lemma Updated_same m : tftags.Updated m m = ∅.
Proof.
  apply map_empty. intros k. apply eq_None_not_Some. intros [v Hv].
  apply Updated_lookup_Some in Hv as [Hv Hn]. congruence.
Qed.


Lemma elem_of_Keys m k : k ∈ tftags.Keys m ↔ is_Some (m !! k).
Proof.
  unfold tftags.Keys. rewrite list_elem_of_fmap. split.
  - intros ([k' v] & -> & Hin). apply elem_of_map_to_list in Hin. eauto.
  - intros [v Hv]. exists (k, v). split; [done|].
    by apply elem_of_map_to_list.
Qed.

Lemma NoDup_Keys m : NoDup (tftags.Keys m).
Proof. apply NoDup_fst_map_to_list. Qed.

Lemma elem_of_StringSlice (l : list string) (key : option string) :
  key ∈ aws.StringSlice l ↔ ∃ k, key = Some k ∧ k ∈ l.
Proof. unfold aws.StringSlice. apply list_elem_of_fmap. Qed.

Lemma StringValue_StringSlice (l : list string) :
  aws.StringValue <$> aws.StringSlice l = l.
Proof.
  unfold aws.StringSlice. induction l as [|k l IH]; [done|].
  simpl. f_equal. exact IH.
Qed.

Lemma elem_of_Tags m (tag : Tag) :
  tag ∈ Tags m ↔ ∃ k v, tag = toTag (k, v) ∧ m !! k = Some v.
Proof.
  rewrite Tags_toTag, list_elem_of_fmap. split.
  - intros ([k v] & -> & Hin). apply elem_of_map_to_list in Hin. eauto.
  - intros (k & v & -> & Hv). exists (k, v). split; [done|].
    by apply elem_of_map_to_list.
Qed.

Lemma Tags_inj m1 m2 : Tags m1 ≡ₚ Tags m2 → m1 = m2.
Proof.
  intros H. rewrite <-(KeyValueTags_Permutation m2 (Tags m1) H).
  symmetry. by apply KeyValueTags_Permutation.
Qed.

Lemma Keys_dom m : list_to_set (tftags.Keys m) =@{gset string} dom m.
Proof.
  apply set_eq. intros k.
  by rewrite elem_of_list_to_set, elem_of_Keys, elem_of_dom.
Qed.

End TagSets.

(** ** The control flow of [UpdateTags] *)

Section Reconciler.

Context {S : Type}.
Variable conn : Conn S.
Variable AwsTagKeyPrefix : string.
Variable identifier : string.

Implicit Types (old new : gmap string string) (σ : S).

Local Abbreviation untagReq := (untagRequest AwsTagKeyPrefix identifier).
Local Abbreviation tagReq := (tagRequest AwsTagKeyPrefix identifier).
Local Abbreviation runUpdate oldTagsMap newTagsMap σ :=
  (run conn (UpdateTags AwsTagKeyPrefix identifier oldTagsMap newTagsMap) σ).

Lemma run_UpdateTags_path (oldTagsMap newTagsMap : tftags.TagsMap) σ :
  path conn AwsTagKeyPrefix identifier
       (tftags.New oldTagsMap) (tftags.New newTagsMap) σ
       (runUpdate oldTagsMap newTagsMap σ).
Proof.
  unfold UpdateTags, untagRequest, tagRequest. simpl.
  set (old := tftags.New oldTagsMap). set (new := tftags.New newTagsMap).
  destruct (Nat.ltb_spec 0 (size (tftags.Removed old new))) as [Hr|Hr];
    destruct (Nat.ltb_spec 0 (size (tftags.Updated old new))) as [Hu|Hu];
    simpl.
  - destruct (doUntagResource conn _ σ) as [[e|] σ1] eqn:Hun; simpl.
    + by apply path_untag_failed.
    + destruct (doTagResource conn _ σ1) as [[e|] σ2] eqn:Htag; simpl.
      * by apply (path_untag_tag _ _ _ old new σ σ1 (Some e) σ2).
      * by apply (path_untag_tag _ _ _ old new σ σ1 None σ2).
  - destruct (doUntagResource conn _ σ) as [[e|] σ1] eqn:Hun; simpl.
    + by apply path_untag_failed.
    + apply path_untag; [done|lia|done].
  - destruct (doTagResource conn _ σ) as [[e|] σ1] eqn:Htag; simpl.
    + apply (path_tag _ _ _ old new σ (Some e) σ1); [lia|done|done].
    + apply (path_tag _ _ _ old new σ None σ1); [lia|done|done].
  - apply path_noop; lia.
Qed.

Lemma run_reconcile_path old new σ :
  path conn AwsTagKeyPrefix identifier old new σ
       (runUpdate (tftags.StringMap old) (tftags.StringMap new) σ).
Proof.
  exact (run_UpdateTags_path (tftags.StringMap old) (tftags.StringMap new) σ).
Qed.

Lemma UpdateTags_calls_bound_paths old new σ :
  let calls := (runUpdate (tftags.StringMap old) (tftags.StringMap new) σ).2 in
  calls = [] ∨ calls = [CallUntag (untagReq old new)] ∨
  calls = [CallTag (tagReq old new)] ∨
  calls = [CallUntag (untagReq old new); CallTag (tagReq old new)].
Proof. destruct (run_reconcile_path old new σ); simpl; auto. Qed.

(** Two answers to the same call from the same state are the same answer. *)
Ltac same_call :=
  repeat match goal with
  | H1 : doUntagResource ?c ?i ?s = _, H2 : doUntagResource ?c ?i ?s = _ |- _ =>
      rewrite H1 in H2; inversion H2; subst; clear H2
  | H1 : doTagResource ?c ?i ?s = _, H2 : doTagResource ?c ?i ?s = _ |- _ =>
      rewrite H1 in H2; inversion H2; subst; clear H2
  end.

(** C8.  One invocation of [UpdateTags] issues no call, the untag call
    alone, the tag call alone, or the untag call followed by the tag call:
    at most one call of each kind, the untag call first, and neither of them
    a second time, whatever the service answers. *)
Theorem UpdateTags_calls_bound (oldTagsMap newTagsMap : tftags.TagsMap) σ :
  let calls := (runUpdate oldTagsMap newTagsMap σ).2 in
  let untag := untagReq (tftags.New oldTagsMap) (tftags.New newTagsMap) in
  let tag := tagReq (tftags.New oldTagsMap) (tftags.New newTagsMap) in
  calls = [] ∨ calls = [CallUntag untag] ∨ calls = [CallTag tag] ∨
  calls = [CallUntag untag; CallTag tag].
Proof.
  intros calls untag tag. subst calls.
  destruct (run_UpdateTags_path oldTagsMap newTagsMap σ); simpl; auto.
Qed.

(** Every call of a run is one of the two requests of the reconciliation. *)
Lemma UpdateTags_calls_requests old new σ (c : Call) :
  c ∈ (runUpdate (tftags.StringMap old) (tftags.StringMap new) σ).2 →
  c = CallUntag (untagReq old new) ∨ c = CallTag (tagReq old new).
Proof.
  destruct (UpdateTags_calls_bound_paths old new σ) as [H | [H | [H | H]]];
    rewrite H; clear H; intros Hc.
  - by apply elem_of_nil in Hc.
  - apply list_elem_of_singleton in Hc. by left.
  - apply list_elem_of_singleton in Hc. by right.
  - apply elem_of_cons in Hc as [Hc|Hc]; [by left|].
    apply list_elem_of_singleton in Hc. by right.
Qed.

(** C5.  When [old] and [new] are the same tag set, and more generally when
    both the removed and the updated set are empty, [UpdateTags] issues no
    remote call, leaves the service as it is and returns nil. *)
Theorem UpdateTags_noop old new σ :
  old = new ∨ (tftags.Removed old new = ∅ ∧ tftags.Updated old new = ∅) →
  runUpdate (tftags.StringMap old) (tftags.StringMap new) σ = (None, σ, []).
Proof.
  intros H.
  assert (tftags.Removed old new = ∅ ∧ tftags.Updated old new = ∅)
    as [Hr Hu].
  { destruct H as [->|H]; [|done]. split; [apply Removed_same|apply Updated_same]. }
  apply map_size_empty_iff in Hr, Hu.
  destruct (run_reconcile_path old new σ); [reflexivity|lia..].
Qed.

(** C3.  When the removed set is not empty and the untag call fails,
    [UpdateTags] returns the untag-phase error, which wraps the transport
    error and names the resource, and the untag call is the only call
    issued.  When the tag call fails, [UpdateTags] returns the tag-phase
    error, built the same way. *)
Theorem UpdateTags_phase_errors old new σ :
  (∀ e σ1,
     0 < size (tftags.Removed old new) →
     doUntagResource conn (untagReq old new) σ = (Some e, σ1) →
     runUpdate (tftags.StringMap old) (tftags.StringMap new) σ
     = (Some (untagError identifier e), σ1, [CallUntag (untagReq old new)])
     ∧ Unwrap (untagError identifier e) = Some e
     ∧ Error (untagError identifier e)
       = "error untagging resource (" ++ identifier ++ "): " ++ Error e) ∧
  (∀ σ1 e σ2,
     tagPhaseFrom conn AwsTagKeyPrefix identifier old new σ σ1 →
     0 < size (tftags.Updated old new) →
     doTagResource conn (tagReq old new) σ1 = (Some e, σ2) →
     (runUpdate (tftags.StringMap old) (tftags.StringMap new) σ).1
     = (Some (tagError identifier e), σ2)
     ∧ last (runUpdate (tftags.StringMap old) (tftags.StringMap new) σ).2
       = Some (CallTag (tagReq old new))
     ∧ Unwrap (tagError identifier e) = Some e
     ∧ Error (tagError identifier e)
       = "error tagging resource (" ++ identifier ++ "): " ++ Error e).
Proof.
  split.
  - intros e σ1 Hpos Hfail. split; [|done].
    destruct (run_reconcile_path old new σ); try lia; congruence.
  - intros σ1 e σ2 Hfrom Hpos Hfail.
    split; [|split; [|done]].
    + destruct Hfrom as [[Hz ->]|[Hr Hun]];
        destruct (run_reconcile_path old new σ); simpl; try lia;
        try congruence; same_call; reflexivity.
    + destruct Hfrom as [[Hz ->]|[Hr Hun]];
        destruct (run_reconcile_path old new σ); simpl; try lia;
        congruence.
Qed.

(** C2, as the code has it.  The keys the untag call carries are the keys
    of [old] that are not keys of [new] and do not carry the reserved
    prefix, each once; the tags the tag call carries are the pairs
    [(k, new[k])] with [k] absent from [old] or [old[k] != new[k]], and [k]
    not carrying the reserved prefix. *)
Theorem UpdateTags_plan old new σ :
  let calls := (runUpdate (tftags.StringMap old) (tftags.StringMap new) σ).2 in
  (∀ input, CallUntag input ∈ calls →
     list_to_set (aws.StringValue <$> UntagResourceInput.TagKeys input)
     =@{gset string}
       filter (λ k, reserved AwsTagKeyPrefix k = false) (dom old ∖ dom new)
     ∧ NoDup (UntagResourceInput.TagKeys input)) ∧
  (∀ input, CallTag input ∈ calls →
     TagResourceInput.Tags input
     = Tags (filter (λ kv, old !! kv.1 ≠ Some kv.2
                           ∧ reserved AwsTagKeyPrefix kv.1 = false) new)).
Proof.
  intros calls. subst calls. split.
  - intros input [Hc|Hc]%UpdateTags_calls_requests; [|done].
    inversion Hc; subst; clear Hc.
    unfold untagRequest, untagResourceInput. simpl. split.
    + rewrite StringValue_StringSlice, Keys_dom. apply set_eq. intros k.
      rewrite elem_of_dom, elem_of_filter, elem_of_difference, !elem_of_dom.
      rewrite <-(eq_None_not_Some (new !! k)). unfold is_Some.
      setoid_rewrite IgnoreAws_lookup_Some.
      setoid_rewrite Removed_lookup_Some. firstorder.
    + apply (NoDup_fmap_2 _), NoDup_Keys.
  - intros input [Hc|Hc]%UpdateTags_calls_requests; [done|].
    inversion Hc; subst; clear Hc.
    unfold tagRequest, tagResourceInput. simpl. f_equal.
    apply map_eq. intros k. apply option_eq. intros v.
    rewrite IgnoreAws_lookup_Some, Updated_lookup_Some,
      map_lookup_filter_Some. simpl. tauto.
Qed.


(** C6, as the code has it.  A key without the reserved prefix whose value
    changes from a non-empty string to the empty string is in the updated
    set, goes out with the tag call (which is issued unless the untag call
    failed) and is not among the keys of the untag call; and every key the
    untag call carries is absent from [new]. *)
Theorem UpdateTags_empty_value_is_update old new σ k v :
  reserved AwsTagKeyPrefix k = false →
  old !! k = Some v → v ≠ "" → new !! k = Some "" →
  let r := runUpdate (tftags.StringMap old) (tftags.StringMap new) σ in
  tftags.Updated old new !! k = Some "" ∧
  ((∃ e, r.1.1 = Some (untagError identifier e)) ∨
   CallTag (tagReq old new) ∈ r.2) ∧
  (∀ input, CallTag input ∈ r.2 →
     mkTag (Some k) (Some "") ∈ TagResourceInput.Tags input) ∧
  (∀ input, CallUntag input ∈ r.2 →
     Some k ∉ UntagResourceInput.TagKeys input) ∧
  (∀ input key, CallUntag input ∈ r.2 →
     key ∈ UntagResourceInput.TagKeys input →
     ∃ k', key = Some k' ∧ new !! k' = None).
Proof.
  intros Hres Hold Hv Hnew r. subst r.
  assert (tftags.Updated old new !! k = Some "") as Hupd.
  { apply Updated_lookup_Some. split; [done|]. congruence. }
  assert (∀ input key,
            CallUntag input ∈
              (runUpdate (tftags.StringMap old) (tftags.StringMap new) σ).2 →
            key ∈ UntagResourceInput.TagKeys input →
            ∃ k', key = Some k' ∧ new !! k' = None) as Hkeys.
  { intros input key [Hc|Hc]%UpdateTags_calls_requests; [|done].
    inversion Hc; subst; clear Hc.
    unfold untagRequest, untagResourceInput. simpl.
    intros (k' & -> & [v' Hk']%elem_of_Keys)%elem_of_StringSlice.
    exists k'. split; [done|].
    apply IgnoreAws_lookup_Some in Hk' as [Hk' _].
    by apply Removed_lookup_Some in Hk' as [_ Hk']. }
  split; [done|]. split; [|split; [|split; [|done]]].
  - assert (0 < size (tftags.Updated old new)) as Hpos.
    { destruct (size (tftags.Updated old new)) eqn:Hsz; [|lia].
      apply map_size_empty_iff in Hsz. rewrite Hsz in Hupd.
      by rewrite lookup_empty in Hupd. }
    destruct (run_reconcile_path old new σ) as [| | | |? [e|] ?]; simpl;
      try lia; eauto.
    + right. apply list_elem_of_singleton. reflexivity.
    + right. apply elem_of_cons. right. by apply list_elem_of_singleton.
    + right. apply elem_of_cons. right. by apply list_elem_of_singleton.
  - intros input [Hc|Hc]%UpdateTags_calls_requests; [done|].
    inversion Hc; subst; clear Hc.
    unfold tagRequest, tagResourceInput. simpl.
    apply elem_of_Tags. exists k, "". split; [done|].
    by apply IgnoreAws_lookup_Some.
  - intros input Hc Hin.
    destruct (Hkeys input (Some k) Hc Hin) as (k' & [= <-] & Hnone).
    congruence.
Qed.

End Reconciler.

(** ** Running programs *)

Lemma run_bind {S A B : Type} (conn : Conn S) (m : Remote A)
    (f : A → Remote B) (σ : S) :
  run conn (m ≫= f) σ
  = let '(a, σ1, calls1) := run conn m σ in
    let '(b, σ2, calls2) := run conn (f a) σ1 in
    (b, σ2, (calls1 ++ calls2)%list).
Proof.
  revert σ. induction m as [a|input k IH|input k IH|input k IH]; intros σ.
  - simpl. by destruct (run conn (f a) σ) as [[b σ2] calls2].
  - simpl. destruct (doListTagsForResource conn input σ) as [r σ1].
    change (Remote_bind f (k r)) with (k r ≫= f). rewrite IH.
    destruct (run conn (k r) σ1) as [[a σ2] calls1].
    by destruct (run conn (f a) σ2) as [[b σ3] calls2].
  - simpl. destruct (doUntagResource conn input σ) as [r σ1].
    change (Remote_bind f (k r)) with (k r ≫= f). rewrite IH.
    destruct (run conn (k r) σ1) as [[a σ2] calls1].
    by destruct (run conn (f a) σ2) as [[b σ3] calls2].
  - simpl. destruct (doTagResource conn input σ) as [r σ1].
    change (Remote_bind f (k r)) with (k r ≫= f). rewrite IH.
    destruct (run conn (k r) σ1) as [[a σ2] calls1].
    by destruct (run conn (f a) σ2) as [[b σ3] calls2].
Qed.

(** ** Reconciling against the tag store *)

Section Store.

Variable AwsTagKeyPrefix : string.
Variable identifier : string.

Implicit Types (old new m : gmap string string) (σ : Store) (k : string).

Lemma stored_insert σ m : stored (<[identifier := m]> σ) (Some identifier) = m.
Proof. unfold stored. simpl. by rewrite lookup_insert_eq. Qed.

(** The untag call of the store removes the keys it is given. *)
Lemma store_untag m (removed : gmap string string) σ :
  doUntagResource store_conn
    (untagResourceInput AwsTagKeyPrefix identifier removed)
    (<[identifier := m]> σ)
  = (None,
     <[identifier := m ∖ tftags.IgnoreAws AwsTagKeyPrefix removed]> σ).
Proof.
  unfold untagResourceInput. simpl. rewrite stored_insert, insert_insert_eq.
  f_equal. f_equal. rewrite <-(foldr_fmap delete m _ aws.StringValue).
  rewrite StringValue_StringSlice.
  apply map_eq. intros k. rewrite lookup_difference.
  destruct (tftags.IgnoreAws AwsTagKeyPrefix removed !! k) as [v|] eqn:Hk.
  - apply lookup_foldr_delete, elem_of_Keys. eauto.
  - apply lookup_foldr_delete_not_elem_of. rewrite elem_of_Keys, Hk.
    by intros [? ?].
Qed.

Lemma upsert_toTag (kvs : list (string * string)) m :
  fold_left
    (λ m tag, <[aws.StringValue (Key tag) := aws.StringValue (Value tag)]> m)
    (map toTag kvs) m
  = list_to_map (rev kvs) ∪ m.
Proof.
  revert m. induction kvs as [|[k v] kvs IH]; intros m; simpl.
  - by rewrite (left_id_L ∅ (∪)).
  - rewrite IH, list_to_map_app. simpl.
    rewrite insert_empty, <-(assoc_L (∪)), <-insert_union_singleton_l.
    reflexivity.
Qed.

(** The tag call of the store upserts the pairs it is given. *)
Lemma store_tag m (updated : gmap string string) σ :
  doTagResource store_conn
    (tagResourceInput AwsTagKeyPrefix identifier updated)
    (<[identifier := m]> σ)
  = (None,
     <[identifier := tftags.IgnoreAws AwsTagKeyPrefix updated ∪ m]> σ).
Proof.
  unfold tagResourceInput. simpl. rewrite stored_insert, insert_insert_eq.
  f_equal. f_equal. rewrite Tags_toTag, upsert_toTag. f_equal.
  rewrite <-(list_to_map_to_list (tftags.IgnoreAws _ _)) at 2.
  symmetry. apply list_to_map_proper; [apply NoDup_fst_map_to_list|].
  apply Permutation_rev.
Qed.

(** Reading the tags back from the store gives the stored tag set. *)
Lemma store_ListTags m σ :
  run store_conn (ListTags identifier) (<[identifier := m]> σ)
  = ((m, None), <[identifier := m]> σ,
     [CallListTags (ListTagsForResourceInput.mk (Some identifier))]).
Proof.
  unfold ListTags. simpl. rewrite stored_insert.
  do 3 f_equal. by apply KeyValueTags_Permutation.
Qed.

(** The tag set a reconciliation leaves in the store. *)
Lemma reconciled_lookup old new k :
  (tftags.IgnoreAws AwsTagKeyPrefix (tftags.Updated old new)
   ∪ old ∖ tftags.IgnoreAws AwsTagKeyPrefix (tftags.Removed old new)) !! k
  = if reserved AwsTagKeyPrefix k then old !! k else new !! k.
Proof.
  apply option_eq. intros v.
  rewrite lookup_union_Some_raw, lookup_difference_Some.
  rewrite IgnoreAws_lookup_Some, Updated_lookup_Some.
  rewrite !eq_None_not_Some. unfold is_Some.
  setoid_rewrite IgnoreAws_lookup_Some.
  setoid_rewrite Updated_lookup_Some.
  setoid_rewrite Removed_lookup_Some.
  destruct (reserved AwsTagKeyPrefix k) eqn:Hres.
  - split.
    + intros [[_ ?]|[_ [? _]]]; [done|done].
    + intros Hold. right. split; [|split; [done|]]; intros [? [_ ?]]; done.
  - split.
    + intros [[[? _] _]|[Hnot [Hold Hkeep]]]; [done|].
      destruct (new !! k) as [v'|] eqn:Hnew.
      * destruct (decide (v' = v)) as [->|Hne]; [done|].
        exfalso. apply Hnot. exists v'. repeat split; congruence.
      * exfalso. apply Hkeep. exists v. done.
    + intros Hnew.
      destruct (decide (old !! k = Some v)) as [Hold|Hold].
      * right. split; [|split; [done|]].
        -- intros [v' [[Hv' Hne] _]]. congruence.
        -- intros [v' [[_ Hnone] _]]. congruence.
      * left. done.
Qed.

Lemma store_run_UpdateTags old new σ :
  ∃ calls,
    run store_conn
        (UpdateTags AwsTagKeyPrefix identifier
                    (tftags.StringMap old) (tftags.StringMap new))
        (<[identifier := old]> σ)
    = (None,
       <[identifier :=
           tftags.IgnoreAws AwsTagKeyPrefix (tftags.Updated old new)
           ∪ old ∖ tftags.IgnoreAws AwsTagKeyPrefix (tftags.Removed old new)]> σ,
       calls).
Proof.
  assert (∀ (m : gmap string string), size m = 0 →
            tftags.IgnoreAws AwsTagKeyPrefix m = ∅) as Hempty.
  { intros m ->%map_size_empty_iff. apply map_filter_empty. }
  destruct (run_reconcile_path store_conn AwsTagKeyPrefix identifier
              old new (<[identifier := old]> σ))
    as [Hr Hu|err σ1 Hr Hu Htag|e σ1 Hr Hun|σ1 Hr Hu Hun|σ1 err σ2 Hr Hu Hun Htag];
    unfold untagRequest, tagRequest in *;
    rewrite ?store_untag in *; rewrite ?store_tag in *;
    [eexists|eexists|discriminate Hun|eexists|eexists].
  - rewrite (Hempty _ Hr), (Hempty _ Hu).
    rewrite (left_id_L ∅ (∪)), map_difference_empty. reflexivity.
  - inversion Htag; subst. rewrite (Hempty _ Hr), map_difference_empty.
    reflexivity.
  - inversion Hun; subst. rewrite (Hempty _ Hu), (left_id_L ∅ (∪)).
    reflexivity.
  - inversion Hun; subst. rewrite store_tag in Htag.
    inversion Htag; subst. reflexivity.
Qed.

(** The tag set read back after a reconciliation, key by key: the new value
    on a key without the reserved prefix, the old one on a key with it. *)
Lemma readback_lookup old new σ :
  ∃ tags,
    (run store_conn (reconcileThenList AwsTagKeyPrefix identifier old new)
         (<[identifier := old]> σ)).1.1
    = (None, (tags, None)) ∧
    ∀ k, tags !! k = if reserved AwsTagKeyPrefix k then old !! k else new !! k.
Proof.
  destruct (store_run_UpdateTags old new σ) as [calls Hrun].
  eexists. split; [|apply reconciled_lookup].
  unfold reconcileThenList. rewrite run_bind, Hrun. cbv beta iota.
  rewrite run_bind, store_ListTags. reflexivity.
Qed.

End Store.

(** ** Convergence *)

(** C1, as the code has it.  Against the tag store that holds [old] for
    the identifier, reconciling from [old] to [new] succeeds, and reading
    the tags back then yields exactly [new], provided [old] and [new] agree
    on the keys that carry the reserved prefix (for one, when neither has
    such a key). *)
Theorem UpdateTags_converges (AwsTagKeyPrefix identifier : string)
    (old new : gmap string string) (σ : Store) :
  (∀ k, reserved AwsTagKeyPrefix k = true → old !! k = new !! k) →
  (run store_conn (reconcileThenList AwsTagKeyPrefix identifier old new)
       (<[identifier := old]> σ)).1.1
  = (None, (new, None)).
Proof.
  intros Hagree.
  destruct (readback_lookup AwsTagKeyPrefix identifier old new σ)
    as (tags & -> & Htags).
  do 2 f_equal. apply map_eq. intros k. rewrite Htags.
  destruct (reserved AwsTagKeyPrefix k) eqn:Hres; [|done].
  by apply Hagree.
Qed.

Lemma UpdateTags_converges_witness :
  (run store_conn
       (reconcileThenList Scenario.AwsTagKeyPrefix Scenario.arn
          Scenario.env_dev_temp Scenario.env_prod_team)
       (<[Scenario.arn := Scenario.env_dev_temp]> ∅)).1.1
  = (None, (Scenario.env_prod_team, None)).
Proof.
  apply (UpdateTags_converges Scenario.AwsTagKeyPrefix Scenario.arn
           Scenario.env_dev_temp Scenario.env_prod_team ∅).
  intros k Hk.
  destruct (decide (k = "env")) as [->|?]; [discriminate Hk|].
  destruct (decide (k = "temp")) as [->|?]; [discriminate Hk|].
  destruct (decide (k = "team")) as [->|?]; [discriminate Hk|].
  unfold Scenario.env_dev_temp, Scenario.env_prod_team.
  rewrite !lookup_insert_ne, !lookup_singleton_ne by done. reflexivity.
Defined.

(** C1 as stated fails: with [new] adding a key under the reserved prefix,
    the tag call carries no tag and the tags read back are still [old]. *)
Lemma UpdateTags_converges_counterexample :
  (run store_conn
       (reconcileThenList Scenario.AwsTagKeyPrefix Scenario.arn
          Scenario.env_dev Scenario.env_dev_stack)
       (<[Scenario.arn := Scenario.env_dev]> ∅)).1.1
  ≠ (None, (Scenario.env_dev_stack, None)).
Proof.
  intros H.
  assert ((run store_conn
             (reconcileThenList Scenario.AwsTagKeyPrefix Scenario.arn
                Scenario.env_dev Scenario.env_dev_stack)
             (<[Scenario.arn := Scenario.env_dev]> ∅)).1.1.2.1
          !! "aws:cloudformation:stack-name" = Some "s") as H'
    by (rewrite H; reflexivity).
  vm_compute in H'. discriminate H'.
Qed.

(** ** The scenarios of the reconciler *)

Lemma UpdateTags_noop_witness :
  Scenario.run_store Scenario.env_dev Scenario.env_dev
  = (None, {[ Scenario.arn := Scenario.env_dev ]}, []).
Proof.
  apply (UpdateTags_noop store_conn Scenario.AwsTagKeyPrefix Scenario.arn
           Scenario.env_dev Scenario.env_dev).
  left. reflexivity.
Defined.

Lemma UpdateTags_phase_errors_witness :
  (run (failing_conn (Some Scenario.throttled) None)
       (UpdateTags Scenario.AwsTagKeyPrefix Scenario.arn
          (tftags.StringMap Scenario.env_dev_temp)
          (tftags.StringMap Scenario.env_prod_team))
       {[ Scenario.arn := Scenario.env_dev_temp ]}
   = (Some (untagError Scenario.arn Scenario.throttled),
      {[ Scenario.arn := Scenario.env_dev_temp ]},
      [CallUntag (untagRequest Scenario.AwsTagKeyPrefix Scenario.arn
                    Scenario.env_dev_temp Scenario.env_prod_team)])) ∧
  (run (failing_conn None (Some Scenario.throttled))
       (UpdateTags Scenario.AwsTagKeyPrefix Scenario.arn
          (tftags.StringMap Scenario.env_dev_temp)
          (tftags.StringMap Scenario.env_prod_team))
       {[ Scenario.arn := Scenario.env_dev_temp ]}).1.1
  = Some (tagError Scenario.arn Scenario.throttled).
Proof.
  split.
  - apply (UpdateTags_phase_errors
             (failing_conn (Some Scenario.throttled) None)
             Scenario.AwsTagKeyPrefix Scenario.arn
             Scenario.env_dev_temp Scenario.env_prod_team
             {[ Scenario.arn := Scenario.env_dev_temp ]}).
    + vm_compute. lia.
    + reflexivity.
  - pose proof (proj2 (UpdateTags_phase_errors
             (failing_conn None (Some Scenario.throttled))
             Scenario.AwsTagKeyPrefix Scenario.arn
             Scenario.env_dev_temp Scenario.env_prod_team
             {[ Scenario.arn := Scenario.env_dev_temp ]})) as H.
    edestruct H as [Hres _]; [| |reflexivity|rewrite Hres; reflexivity].
    + right. split; [vm_compute; lia|reflexivity].
    + vm_compute. lia.
Defined.

Lemma UpdateTags_plan_witness :
  list_to_set
    (aws.StringValue <$>
       UntagResourceInput.TagKeys
         (untagRequest Scenario.AwsTagKeyPrefix Scenario.arn
            Scenario.env_dev_temp Scenario.env_prod_team))
  =@{gset string}
    filter (λ k, reserved Scenario.AwsTagKeyPrefix k = false)
           (dom Scenario.env_dev_temp ∖ dom Scenario.env_prod_team) ∧
  TagResourceInput.Tags
    (tagRequest Scenario.AwsTagKeyPrefix Scenario.arn
       Scenario.env_dev_temp Scenario.env_prod_team)
  = Tags (filter (λ kv, Scenario.env_dev_temp !! kv.1 ≠ Some kv.2
                        ∧ reserved Scenario.AwsTagKeyPrefix kv.1 = false)
                 Scenario.env_prod_team).
Proof.
  destruct (UpdateTags_plan store_conn Scenario.AwsTagKeyPrefix Scenario.arn
              Scenario.env_dev_temp Scenario.env_prod_team
              {[ Scenario.arn := Scenario.env_dev_temp ]}) as [Huntag Htag].
  split.
  - apply Huntag. vm_compute. apply list_elem_of_here.
  - apply Htag. vm_compute. apply list_elem_of_further, list_elem_of_here.
Defined.

(** C2 as stated fails: of the two keys of [old] that [new] drops, the
    untag call carries only the one without the reserved prefix. *)
Lemma UpdateTags_plan_counterexample :
  ∃ input,
    CallUntag input
    ∈ (Scenario.run_store Scenario.team_created_by Scenario.env_dev).2 ∧
    list_to_set (aws.StringValue <$> UntagResourceInput.TagKeys input)
    ≠@{gset string} dom Scenario.team_created_by ∖ dom Scenario.env_dev.
Proof.
  exists (untagRequest Scenario.AwsTagKeyPrefix Scenario.arn
            Scenario.team_created_by Scenario.env_dev).
  split.
  - vm_compute. apply list_elem_of_here.
  - intros H.
    assert ("aws:createdBy"
            ∈ dom Scenario.team_created_by ∖ dom Scenario.env_dev) as Hin.
    { apply elem_of_difference. rewrite !elem_of_dom. split.
      - exists "me". reflexivity.
      - intros [v Hv]. vm_compute in Hv. discriminate Hv. }
    rewrite <-H in Hin. apply elem_of_list_to_set in Hin.
    vm_compute in Hin. apply list_elem_of_singleton in Hin. discriminate Hin.
Qed.



Lemma UpdateTags_empty_value_is_update_witness :
  tftags.Updated (Scenario.owner "ops") (Scenario.owner "") !! "owner"
  = Some "" ∧
  mkTag (Some "owner") (Some "")
  ∈ TagResourceInput.Tags
      (tagRequest Scenario.AwsTagKeyPrefix Scenario.arn
         (Scenario.owner "ops") (Scenario.owner "")) ∧
  (Scenario.run_store (Scenario.owner "ops") (Scenario.owner "")).2
  = [CallTag (tagRequest Scenario.AwsTagKeyPrefix Scenario.arn
                (Scenario.owner "ops") (Scenario.owner ""))].
Proof.
  destruct (UpdateTags_empty_value_is_update store_conn
              Scenario.AwsTagKeyPrefix Scenario.arn
              (Scenario.owner "ops") (Scenario.owner "")
              {[ Scenario.arn := Scenario.owner "ops" ]} "owner" "ops")
    as (Hupdated & _ & Htag & _); [reflexivity|reflexivity|discriminate|reflexivity|].
  split; [exact Hupdated|]. split; [|reflexivity].
  apply Htag. vm_compute. apply list_elem_of_here.
Defined.

(** C6 as stated fails: the value of a key under the reserved prefix
    changes from a non-empty string to the empty string, and the tag call
    that is issued does not carry the key. *)
Lemma UpdateTags_empty_value_is_update_counterexample :
  Scenario.created_by "me" !! "aws:createdBy" = Some "me" ∧
  Scenario.created_by "" !! "aws:createdBy" = Some "" ∧
  ∃ input,
    CallTag input
    ∈ (Scenario.run_store (Scenario.created_by "me")
         (Scenario.created_by "")).2 ∧
    mkTag (Some "aws:createdBy") (Some "") ∉ TagResourceInput.Tags input.
Proof.
  split; [reflexivity|]. split; [reflexivity|].
  exists (tagRequest Scenario.AwsTagKeyPrefix Scenario.arn
            (Scenario.created_by "me") (Scenario.created_by "")).
  split; [vm_compute; apply list_elem_of_here|].
  intros H. vm_compute in H. by apply elem_of_nil in H.
Qed.

(** ** Tag conversion round trip *)

(** C10.  Converting a tag set to service tags with [Tags] and back with
    [KeyValueTags] yields the tag set again, in whatever order the service
    tags are listed; so [Tags] is injective up to the order of its
    result. *)
Theorem KeyValueTags_Tags_roundtrip (t : gmap string string) :
  KeyValueTags (Tags t) = t ∧
  (∀ l : list Tag, l ≡ₚ Tags t → KeyValueTags l = t) ∧
  (∀ t' : gmap string string, Tags t ≡ₚ Tags t' → t = t').
Proof.
  split; [by apply KeyValueTags_Permutation|].
  split; [apply KeyValueTags_Permutation|apply Tags_inj].
Qed.

Lemma KeyValueTags_Tags_roundtrip_witness :
  KeyValueTags
    [mkTag (Some "team") (Some "x"); mkTag (Some "env") (Some "prod")]
  = Scenario.env_prod_team.
Proof.
  apply (proj1 (proj2 (KeyValueTags_Tags_roundtrip Scenario.env_prod_team))).
  vm_compute. apply perm_swap.
Defined.

(** ** Status probes *)

Section ProbeProperties.

Variable FirehoseConn : Type.
Variable FindDeliveryStreamByName :
  FirehoseConn → string → option DeliveryStreamDescription * option error.
Variable FindDeliveryStreamEncryptionConfigurationByName :
  FirehoseConn → string →
  option DeliveryStreamEncryptionConfiguration * option error.

(** C7.  When the finder reports not-found, each probe returns the nil
    snapshot, the empty status and a nil error; and an error a probe
    returns is the finder's own error, which is not a not-found one, with
    the nil snapshot and the empty status. *)
Theorem status_not_found (conn : FirehoseConn) (name : string) :
  let stream := statusDeliveryStream FirehoseConn FindDeliveryStreamByName in
  let encryption :=
    statusDeliveryStreamEncryptionConfiguration
      FirehoseConn FindDeliveryStreamEncryptionConfigurationByName in
  let found := FindDeliveryStreamByName conn name in
  let foundEnc :=
    FindDeliveryStreamEncryptionConfigurationByName conn name in
  (tfresource.NotFound found.2 = true →
   stream conn name () = Returns (None, "", None)) ∧
  (tfresource.NotFound foundEnc.2 = true →
   encryption conn name () = Returns (None, "", None)) ∧
  (∀ snap label e,
     stream conn name () = Returns (snap, label, Some e) →
     found.2 = Some e ∧ tfresource.NotFound (Some e) = false ∧
     snap = None ∧ label = "") ∧
  (∀ snap label e,
     encryption conn name () = Returns (snap, label, Some e) →
     foundEnc.2 = Some e ∧ tfresource.NotFound (Some e) = false ∧
     snap = None ∧ label = "").
Proof.
  intros stream encryption found foundEnc.
  subst stream encryption found foundEnc.
  unfold statusDeliveryStream, statusDeliveryStreamEncryptionConfiguration.
  destruct (FindDeliveryStreamByName conn name) as [output err].
  destruct (FindDeliveryStreamEncryptionConfigurationByName conn name)
    as [outputEnc errEnc].
  simpl. split; [|split; [|split]].
  - intros ->. reflexivity.
  - intros ->. reflexivity.
  - intros snap label e.
    destruct (tfresource.NotFound err) eqn:Hnf; [discriminate|].
    destruct err as [e'|]; [|destruct output; discriminate].
    intros [= <- <- <-]. auto.
  - intros snap label e.
    destruct (tfresource.NotFound errEnc) eqn:Hnf; [discriminate|].
    destruct errEnc as [e'|]; [|destruct outputEnc; discriminate].
    intros [= <- <- <-]. auto.
Qed.

End ProbeProperties.

Lemma status_not_found_witness :
  statusDeliveryStream (list string) Scenario.findStream ["a"; "b"] "c" ()
  = Returns (None, "", None) ∧
  statusDeliveryStreamEncryptionConfiguration
    (list string) Scenario.findEncryption ["a"; "b"] "c" ()
  = Returns (None, "", None).
Proof.
  destruct (status_not_found (list string) Scenario.findStream
              Scenario.findEncryption ["a"; "b"] "c") as (Hs & He & _).
  split; [apply Hs|apply He]; reflexivity.
Defined.

(** ** The status poller *)

Section PollerProperties.

Context {S : Type}.
Variable cfg : StatusPoller.Config.
Variable probe : S → PollState * S.

Lemma poll_pending fuel count now σ snap label σ' :
  probe σ = ((snap, label, None), σ') →
  StatusPoller.pending cfg label →
  now < StatusPoller.MaxDuration cfg →
  StatusPoller.poll S cfg probe (Datatypes.S fuel) count now σ
  = StatusPoller.poll S cfg probe fuel (Datatypes.S count)
      (now + StatusPoller.PollInterval cfg) σ'.
Proof.
  intros Hprobe [Htarget Hfailure] Hnow. simpl. rewrite Hprobe.
  unfold StatusPoller.member.
  rewrite !bool_decide_eq_false_2 by done.
  destruct (Nat.leb_spec (StatusPoller.MaxDuration cfg) now); [lia|done].
Qed.

Lemma poll_target fuel count now σ snap label σ' :
  probe σ = ((snap, label, None), σ') →
  label ∈ StatusPoller.Target cfg →
  StatusPoller.poll S cfg probe (Datatypes.S fuel) count now σ
  = Some (StatusPoller.mkResult StatusPoller.OnTarget snap
            (Datatypes.S count) now σ').
Proof.
  intros Hprobe Htarget. simpl. rewrite Hprobe.
  unfold StatusPoller.member. by rewrite bool_decide_eq_true_2.
Qed.

(** C9.  When the first two probes return pending status labels and the
    third a target label with snapshot [snap], and the maximum duration has
    not elapsed by the second probe, the poller returns success with [snap]
    after exactly three probes, for every bound of three probes or more. *)
Theorem WaitForState_pending_pending_target
    (σ0 σ1 σ2 σ3 : S) (snap1 snap2 snap : option object)
    (label1 label2 target : string) (fuel : nat) :
  probe σ0 = ((snap1, label1, None), σ1) →
  probe σ1 = ((snap2, label2, None), σ2) →
  probe σ2 = ((snap, target, None), σ3) →
  StatusPoller.pending cfg label1 →
  StatusPoller.pending cfg label2 →
  target ∈ StatusPoller.Target cfg →
  StatusPoller.MinDelay cfg + StatusPoller.PollInterval cfg
  < StatusPoller.MaxDuration cfg →
  (3 ≤ fuel)%nat →
  StatusPoller.WaitForState S cfg probe fuel σ0
  = Some (StatusPoller.mkResult StatusPoller.OnTarget snap 3
            (StatusPoller.MinDelay cfg + StatusPoller.PollInterval cfg
             + StatusPoller.PollInterval cfg) σ3).
Proof.
  intros H1 H2 H3 Hp1 Hp2 Ht Htime Hfuel.
  destruct fuel as [|[|[|fuel]]]; try lia.
  unfold StatusPoller.WaitForState.
  rewrite (poll_pending _ _ _ _ _ _ _ H1 Hp1) by lia.
  rewrite (poll_pending _ _ _ _ _ _ _ H2 Hp2) by lia.
  by rewrite (poll_target _ _ _ _ _ _ _ H3 Ht).
Qed.

End PollerProperties.

Lemma WaitForState_pending_pending_target_witness :
  StatusPoller.WaitForState nat Scenario.waitConfig
    Scenario.creating_then_active 5 0
  = Some (StatusPoller.mkResult StatusPoller.OnTarget (Some Scenario.active)
            3 2 3).
Proof.
  apply (WaitForState_pending_pending_target Scenario.waitConfig
           Scenario.creating_then_active 0 1 2 3 None None
           (Some Scenario.active) "CREATING" "CREATING" "ACTIVE" 5);
    try reflexivity.
  - split; intros H; vm_compute in H;
      repeat (apply elem_of_cons in H as [H|H]; [discriminate H|]);
      by apply elem_of_nil in H.
  - split; intros H; vm_compute in H;
      repeat (apply elem_of_cons in H as [H|H]; [discriminate H|]);
      by apply elem_of_nil in H.
  - apply list_elem_of_here.
  - vm_compute. lia.
  - lia.
Defined.

(** * Further properties *)

(** ** Service tags and tag sets *)

Section TagLists.

Implicit Types (l : list Tag) (t : gmap string string) (k : string).

(** The key under which the loop of [KeyValueTags] files a tag. *)
Local Abbreviation keyOf := (λ tag : Tag, aws.StringValue (Key tag)).

Lemma KeyValueTags_loop_lookup l (m : gmap string (option string)) k :
  fold_left (λ m tag, <[aws.StringValue (Key tag) := Value tag]> m) l m !! k
  = match last (filter (λ tag, keyOf tag = k) l) with
    | Some tag => Some (Value tag)
    | None => m !! k
    end.
Proof.
  revert m. induction l as [|tag l IH]; intros m; [done|].
  simpl. rewrite IH, filter_cons.
  destruct (decide (keyOf tag = k)) as [Hk|Hk].
  - rewrite last_cons.
    destruct (last (filter _ l)); [done|]. by rewrite <-Hk, lookup_insert_eq.
  - destruct (last (filter _ l)); [done|]. by rewrite lookup_insert_ne.
Qed.

Lemma KeyValueTags_loop_size l (m : gmap string (option string)) :
  (size (fold_left
           (λ m tag, <[aws.StringValue (Key tag) := Value tag]> m) l m)
   ≤ size m + length l)%nat.
Proof.
  revert m. induction l as [|tag l IH]; intros m; simpl; [lia|].
  etransitivity; [apply IH|].
  rewrite map_size_insert. destruct (m !! _); simpl; lia.
Qed.

Lemma KeyValueTags_loop_dom l (m : gmap string (option string)) :
  dom (fold_left
         (λ m tag, <[aws.StringValue (Key tag) := Value tag]> m) l m)
  =@{gset string} list_to_set (keyOf <$> l) ∪ dom m.
Proof.
  revert m. induction l as [|tag l IH]; intros m; simpl.
  - by rewrite (left_id_L ∅ (∪)).
  - rewrite IH, dom_insert_L, (assoc_L (∪)).
    by rewrite (comm_L (∪) (list_to_set _) {[_]}).
Qed.

(** X1.  [Tags] lists every entry of the tag set once: as many tags as
    entries, no key twice, and each tag holds a non-nil key and a non-nil
    value that are an entry of the set. *)
Theorem Tags_entries t :
  length (Tags t) = size t ∧
  NoDup (Key <$> Tags t) ∧
  Forall (λ tag, ∃ k v, tag = mkTag (Some k) (Some v) ∧ t !! k = Some v)
         (Tags t).
Proof.
  rewrite Tags_toTag. split; [|split].
  - by rewrite length_map, length_map_to_list.
  - change (map toTag (map_to_list t)) with (toTag <$> map_to_list t).
    rewrite <-list_fmap_compose.
    change (Key ∘ toTag) with (Some ∘ fst : string * string → option string).
    rewrite list_fmap_compose. apply (NoDup_fmap_2 _), NoDup_fst_map_to_list.
  - apply Forall_forall. intros tag Hin.
    apply list_elem_of_fmap in Hin as ([k v] & -> & Hkv).
    exists k, v. split; [done|]. by apply elem_of_map_to_list.
Qed.

(** X2.  [KeyValueTags] keeps, for each key, the value of the last tag of
    the slice that has the key: a later tag overrides an earlier one of the
    same key, a nil key counts as the empty key, and a key no tag has is
    absent. *)
Theorem KeyValueTags_last_wins l k :
  KeyValueTags_loop l !! k
  = Value <$> last (filter (λ tag, aws.StringValue (Key tag) = k) l) ∧
  KeyValueTags l !! k
  = (λ tag, aws.StringValue (Value tag))
    <$> last (filter (λ tag, aws.StringValue (Key tag) = k) l).
Proof.
  assert (KeyValueTags_loop l !! k
          = Value <$> last (filter (λ tag, keyOf tag = k) l)) as Hloop.
  { unfold KeyValueTags_loop. rewrite KeyValueTags_loop_lookup.
    destruct (last _); [done|]. by rewrite lookup_empty. }
  split; [exact Hloop|].
  unfold KeyValueTags. simpl. rewrite lookup_fmap, Hloop.
  by destruct (last _).
Qed.

(** X3.  [KeyValueTags] never has more entries than the slice has tags,
    and has as many when the keys of the tags are distinct. *)
Theorem KeyValueTags_size l :
  (size (KeyValueTags l) ≤ length l)%nat ∧
  (NoDup ((λ tag, aws.StringValue (Key tag)) <$> l) →
   size (KeyValueTags l) = length l).
Proof.
  unfold KeyValueTags. simpl. rewrite map_size_fmap. split.
  - unfold KeyValueTags_loop.
    etransitivity; [apply KeyValueTags_loop_size|].
    rewrite map_size_empty. lia.
  - intros Hnodup.
    transitivity (size (dom (KeyValueTags_loop l) : gset string));
      [symmetry; apply size_dom|].
    unfold KeyValueTags_loop.
    rewrite KeyValueTags_loop_dom, dom_empty_L, (right_id_L ∅ (∪)).
    rewrite size_list_to_set by done. by rewrite length_fmap.
Qed.

(** The entry a tag with a non-nil key and value stands for. *)
Local Abbreviation entryOf :=
  (λ tag : Tag, (aws.StringValue (Key tag), aws.StringValue (Value tag))).

Lemma toTag_entryOf l :
  Forall (λ tag, is_Some (Key tag) ∧ is_Some (Value tag)) l →
  map toTag (map entryOf l) = l.
Proof.
  induction 1 as [|[key value] l [[k Hk] [v Hv]] _ IH]; [done|].
  simpl in *. subst. by rewrite IH.
Qed.

(** X4.  The round trip from the service's side: a slice of tags whose
    keys and values are non-nil and whose keys are distinct is got back,
    up to order, from [Tags] of its [KeyValueTags]. *)
Theorem Tags_KeyValueTags_roundtrip l :
  Forall (λ tag, is_Some (Key tag) ∧ is_Some (Value tag)) l →
  NoDup (Key <$> l) →
  Tags (KeyValueTags l) ≡ₚ l.
Proof.
  intros Hsome Hnodup.
  assert (Key <$> l = Some <$> (map entryOf l).*1) as Heq.
  { clear Hnodup.
    induction Hsome as [|[key value] l [[k Hk] _] _ IH]; [done|].
    simpl in Hk. subst. cbn. f_equal. exact IH. }
  rewrite Heq in Hnodup.
  pose proof (proj1 (NoDup_fmap (@Some string) _) Hnodup) as Hkeys.
  rewrite <-(toTag_entryOf l Hsome) at 1.
  rewrite KeyValueTags_toTag, Tags_toTag.
  rewrite <-(toTag_entryOf l Hsome) at 2.
  apply Permutation_map.
  rewrite map_to_list_to_map.
  - symmetry. apply Permutation_rev.
  - by rewrite <-Permutation_rev.
Qed.

Lemma Tags_KeyValueTags_roundtrip_witness :
  Tags (KeyValueTags
          [mkTag (Some "team") (Some "x"); mkTag (Some "env") (Some "prod")])
  ≡ₚ [mkTag (Some "team") (Some "x"); mkTag (Some "env") (Some "prod")].
Proof.
  apply Tags_KeyValueTags_roundtrip.
  - repeat constructor; eexists; reflexivity.
  - apply (NoDup_fmap_2 (λ k : string, Some k) ["team"; "env"]).
    apply NoDup_cons. split.
    + intros H. apply list_elem_of_singleton in H. discriminate H.
    + apply NoDup_singleton.
Defined.

End TagLists.

(** ** Listing tags *)

(** X5.  Against the tag store, [ListTags] returns exactly the tag set the
    store holds for the identifier (the empty set for an identifier it
    does not know) and no error, with one list call and without changing
    the store. *)
Theorem ListTags_reads_store (identifier : string) (σ : Store) :
  run store_conn (ListTags identifier) σ
  = ((stored σ (Some identifier), None), σ,
     [CallListTags (ListTagsForResourceInput.mk (Some identifier))]).
Proof.
  unfold ListTags. simpl. do 3 f_equal.
  by apply KeyValueTags_Permutation.
Qed.

(** ** Reconciling against a store that has drifted *)

Section StoreDrift.

Variable AwsTagKeyPrefix : string.
Variable identifier : string.

Implicit Types (m : gmap string string) (σ : Store) (k : string).
Implicit Types (oldTagsMap newTagsMap : tftags.TagsMap).

Local Abbreviation update oldTagsMap newTagsMap :=
  (UpdateTags AwsTagKeyPrefix identifier oldTagsMap newTagsMap).
Local Abbreviation kept oldTagsMap newTagsMap m :=
  (tftags.IgnoreAws AwsTagKeyPrefix
     (tftags.Updated (tftags.New oldTagsMap) (tftags.New newTagsMap))
   ∪ m ∖ tftags.IgnoreAws AwsTagKeyPrefix
           (tftags.Removed (tftags.New oldTagsMap) (tftags.New newTagsMap))).

Lemma IgnoreAws_size_0 m : size m = 0 → tftags.IgnoreAws AwsTagKeyPrefix m = ∅.
Proof. intros ->%map_size_empty_iff. apply map_filter_empty. Qed.

(** One run against the store, whatever tag set [m] it holds. *)
Lemma store_run_UpdateTags_from oldTagsMap newTagsMap m σ :
  ∃ calls,
    run store_conn (update oldTagsMap newTagsMap) (<[identifier := m]> σ)
    = (None, <[identifier := kept oldTagsMap newTagsMap m]> σ, calls).
Proof.
  destruct (run_UpdateTags_path store_conn AwsTagKeyPrefix identifier
              oldTagsMap newTagsMap (<[identifier := m]> σ))
    as [Hr Hu|err σ1 Hr Hu Htag|e σ1 Hr Hun|σ1 Hr Hu Hun
        |σ1 err σ2 Hr Hu Hun Htag];
    unfold untagRequest, tagRequest in *;
    rewrite ?store_untag in *; rewrite ?store_tag in *;
    [eexists|eexists|discriminate Hun|eexists|eexists].
  - rewrite (IgnoreAws_size_0 _ Hr), (IgnoreAws_size_0 _ Hu).
    by rewrite (left_id_L ∅ (∪)), map_difference_empty.
  - inversion Htag; subst.
    by rewrite (IgnoreAws_size_0 _ Hr), map_difference_empty.
  - inversion Hun; subst.
    by rewrite (IgnoreAws_size_0 _ Hu), (left_id_L ∅ (∪)).
  - inversion Hun; subst. rewrite store_tag in Htag.
    inversion Htag; subst. reflexivity.
Qed.

Lemma kept_lookup oldTagsMap newTagsMap m k :
  kept oldTagsMap newTagsMap m !! k
  = if reserved AwsTagKeyPrefix k then m !! k
    else if decide (tftags.New oldTagsMap !! k = tftags.New newTagsMap !! k)
         then m !! k
         else tftags.New newTagsMap !! k.
Proof.
  set (old := tftags.New oldTagsMap). set (new := tftags.New newTagsMap).
  rewrite lookup_union, lookup_difference.
  destruct (tftags.IgnoreAws AwsTagKeyPrefix (tftags.Updated old new) !! k)
    as [v|] eqn:Hu;
    destruct (tftags.IgnoreAws AwsTagKeyPrefix (tftags.Removed old new) !! k)
    as [w|] eqn:Hr.
  - apply IgnoreAws_lookup_Some in Hu as [[Hn _]%Updated_lookup_Some _].
    apply IgnoreAws_lookup_Some in Hr as [[_ Hn']%Removed_lookup_Some _].
    congruence.
  - apply IgnoreAws_lookup_Some in Hu as [[Hn Ho]%Updated_lookup_Some ->].
    rewrite decide_False by congruence. simpl.
    rewrite Hn. by destruct (m !! k).
  - apply IgnoreAws_lookup_Some in Hr as [[Ho Hn]%Removed_lookup_Some ->].
    rewrite decide_False by congruence. simpl. by rewrite Hn.
  - rewrite (left_id_L None (∪)).
    destruct (reserved AwsTagKeyPrefix k) eqn:Hres; [done|].
    destruct (decide (old !! k = new !! k)) as [Heq|Hne]; [done|].
    exfalso. destruct (new !! k) as [v|] eqn:Hn.
    + assert (tftags.IgnoreAws AwsTagKeyPrefix (tftags.Updated old new) !! k
              = Some v) as Hin; [|congruence].
      apply IgnoreAws_lookup_Some. split; [|done].
      apply Updated_lookup_Some. split; [done|congruence].
    + destruct (old !! k) as [w|] eqn:Ho; [|done].
      assert (tftags.IgnoreAws AwsTagKeyPrefix (tftags.Removed old new) !! k
              = Some w) as Hin; [|congruence].
      apply IgnoreAws_lookup_Some. split; [|done].
      by apply Removed_lookup_Some.
Qed.

(** X6.  What [UpdateTags] leaves alone.  Whatever tag set the store holds
    for the identifier, after the reconciliation a key keeps the value the
    store had (or stays absent) when it carries the reserved prefix, or
    when [old] and [new] agree on it; this includes the keys neither of
    them knows.  The tag sets of the other identifiers are not touched. *)
Theorem UpdateTags_frame oldTagsMap newTagsMap m σ :
  let r := run store_conn (update oldTagsMap newTagsMap)
               (<[identifier := m]> σ) in
  r.1.1 = None ∧
  (∀ k, reserved AwsTagKeyPrefix k = true →
        stored r.1.2 (Some identifier) !! k = m !! k) ∧
  (∀ k, tftags.New oldTagsMap !! k = tftags.New newTagsMap !! k →
        stored r.1.2 (Some identifier) !! k = m !! k) ∧
  (∀ other, other ≠ identifier → r.1.2 !! other = σ !! other).
Proof.
  intros r. subst r.
  destruct (store_run_UpdateTags_from oldTagsMap newTagsMap m σ)
    as [calls ->].
  simpl. rewrite stored_insert. split; [done|]. split; [|split].
  - intros k Hres. by rewrite kept_lookup, Hres.
  - intros k Heq. rewrite kept_lookup, decide_True by done.
    by destruct (reserved _ _).
  - intros other Hother. by rewrite lookup_insert_ne.
Qed.

(** X7.  What [UpdateTags] enforces.  Whatever tag set the store holds for
    the identifier, after the reconciliation a key without the reserved
    prefix on which [old] and [new] differ has the value of [new], or is
    absent when [new] does not have it. *)
Theorem UpdateTags_enforces oldTagsMap newTagsMap m σ k :
  reserved AwsTagKeyPrefix k = false →
  tftags.New oldTagsMap !! k ≠ tftags.New newTagsMap !! k →
  stored (run store_conn (update oldTagsMap newTagsMap)
              (<[identifier := m]> σ)).1.2 (Some identifier) !! k
  = tftags.New newTagsMap !! k.
Proof.
  intros Hres Hne.
  destruct (store_run_UpdateTags_from oldTagsMap newTagsMap m σ)
    as [calls ->].
  simpl. rewrite stored_insert, kept_lookup, Hres.
  by rewrite decide_False.
Qed.

(** X8.  Running the same reconciliation a second time changes nothing:
    the result and the store are those of the first run. *)
Theorem UpdateTags_twice oldTagsMap newTagsMap m σ :
  (run store_conn
       (update oldTagsMap newTagsMap ≫= λ _, update oldTagsMap newTagsMap)
       (<[identifier := m]> σ)).1
  = (run store_conn (update oldTagsMap newTagsMap)
         (<[identifier := m]> σ)).1.
Proof.
  rewrite run_bind.
  destruct (store_run_UpdateTags_from oldTagsMap newTagsMap m σ)
    as [calls ->].
  destruct (store_run_UpdateTags_from oldTagsMap newTagsMap
              (kept oldTagsMap newTagsMap m) σ) as [calls' ->].
  simpl. f_equal. f_equal.
  apply map_eq. intros k. rewrite !kept_lookup.
  destruct (reserved _ _); [done|]. by destruct (decide _).
Qed.

(** X9.  No rollback.  When the untag call has gone through and the tag
    call fails, [UpdateTags] returns the tag-phase error and the store is
    left with the removed keys deleted and nothing of the updated set
    written. *)
Theorem UpdateTags_no_rollback oldTagsMap newTagsMap m σ (e : error) :
  let old := tftags.New oldTagsMap in
  let new := tftags.New newTagsMap in
  0 < size (tftags.Removed old new) →
  0 < size (tftags.Updated old new) →
  run (failing_conn None (Some e)) (update oldTagsMap newTagsMap)
      (<[identifier := m]> σ)
  = (Some (tagError identifier e),
     <[identifier :=
         m ∖ tftags.IgnoreAws AwsTagKeyPrefix (tftags.Removed old new)]> σ,
     [CallUntag (untagRequest AwsTagKeyPrefix identifier old new);
      CallTag (tagRequest AwsTagKeyPrefix identifier old new)]).
Proof.
  intros old new Hr Hu. subst old new.
  destruct (run_UpdateTags_path (failing_conn None (Some e))
              AwsTagKeyPrefix identifier oldTagsMap newTagsMap
              (<[identifier := m]> σ))
    as [Hr' Hu'|err σ1 Hr' Hu' Htag|e' σ1 Hr' Hun|σ1 Hr' Hu' Hun
        |σ1 err σ2 Hr' Hu' Hun Htag];
    try lia.
  - exfalso. unfold untagRequest in Hun.
    change (doUntagResource (failing_conn None (Some e)))
      with (doUntagResource store_conn) in Hun.
    rewrite store_untag in Hun. discriminate Hun.
  - unfold untagRequest in Hun.
    change (doUntagResource (failing_conn None (Some e)))
      with (doUntagResource store_conn) in Hun.
    rewrite store_untag in Hun. inversion Hun; subst.
    simpl in Htag. inversion Htag; subst. reflexivity.
Qed.

End StoreDrift.

Lemma UpdateTags_frame_witness :
  stored Drift.run_drift.1.2 (Some Scenario.arn) !! "aws:createdBy"
  = Some "me" ∧
  stored Drift.run_drift.1.2 (Some Scenario.arn) !! "extra" = Some "1" ∧
  Drift.run_drift.1.2 !! "arn:other" = None.
Proof.
  destruct (UpdateTags_frame Scenario.AwsTagKeyPrefix Scenario.arn
              (tftags.StringMap Scenario.env_dev_temp)
              (tftags.StringMap Scenario.env_prod_team) Drift.remote ∅)
    as (_ & Hreserved & Hagree & Hother).
  split; [|split].
  - apply (Hreserved "aws:createdBy"). reflexivity.
  - apply (Hagree "extra"). reflexivity.
  - apply (Hother "arn:other"). discriminate.
Defined.

Lemma UpdateTags_enforces_witness :
  stored Drift.run_drift.1.2 (Some Scenario.arn) !! "env" = Some "prod" ∧
  stored Drift.run_drift.1.2 (Some Scenario.arn) !! "temp" = None.
Proof.
  split.
  - apply (UpdateTags_enforces Scenario.AwsTagKeyPrefix Scenario.arn
             (tftags.StringMap Scenario.env_dev_temp)
             (tftags.StringMap Scenario.env_prod_team) Drift.remote ∅ "env");
      [reflexivity|].
    intros H. vm_compute in H. discriminate H.
  - apply (UpdateTags_enforces Scenario.AwsTagKeyPrefix Scenario.arn
             (tftags.StringMap Scenario.env_dev_temp)
             (tftags.StringMap Scenario.env_prod_team) Drift.remote ∅ "temp");
      [reflexivity|].
    intros H. vm_compute in H. discriminate H.
Defined.

Lemma UpdateTags_no_rollback_witness :
  (run (failing_conn None (Some Scenario.throttled))
       (UpdateTags Scenario.AwsTagKeyPrefix Scenario.arn
          (tftags.StringMap Scenario.env_dev_temp)
          (tftags.StringMap Scenario.env_prod_team))
       (<[Scenario.arn := Scenario.env_dev_temp]> ∅)).1
  = (Some (tagError Scenario.arn Scenario.throttled),
     <[Scenario.arn :=
         Scenario.env_dev_temp
         ∖ tftags.IgnoreAws Scenario.AwsTagKeyPrefix
             (tftags.Removed Scenario.env_dev_temp Scenario.env_prod_team)]>
       ∅).
Proof.
  rewrite (UpdateTags_no_rollback Scenario.AwsTagKeyPrefix Scenario.arn
             (tftags.StringMap Scenario.env_dev_temp)
             (tftags.StringMap Scenario.env_prod_team)
             Scenario.env_dev_temp ∅ Scenario.throttled).
  - reflexivity.
  - vm_compute. lia.
  - vm_compute. lia.
Defined.

(** ** What the two calls carry *)

Section Payloads.

Context {S : Type}.
Variable conn : Conn S.
Variable AwsTagKeyPrefix : string.
Variable identifier : string.

Implicit Types (old new : gmap string string) (σ : S) (k : string).

Local Abbreviation runUpdate oldTagsMap newTagsMap σ :=
  (run conn (UpdateTags AwsTagKeyPrefix identifier oldTagsMap newTagsMap) σ).

Lemma IgnoreAws_all_reserved (m : gmap string string) :
  (∀ k, is_Some (m !! k) → reserved AwsTagKeyPrefix k = true) →
  tftags.IgnoreAws AwsTagKeyPrefix m = ∅.
Proof.
  intros Hall. apply map_empty. intros k. apply eq_None_not_Some.
  intros [v [Hv Hres]%IgnoreAws_lookup_Some].
  rewrite Hall in Hres by eauto. discriminate Hres.
Qed.

(** X10.  The emptiness tests come before the filter.  When the removed
    set is not empty and all its keys carry the reserved prefix, the untag
    call is still issued, first, with no key; and when the same holds of
    the updated set, the tag call is issued, last, with no tag, unless the
    untag call failed. *)
Theorem UpdateTags_empty_requests old new σ :
  let r := runUpdate (tftags.StringMap old) (tftags.StringMap new) σ in
  (0 < size (tftags.Removed old new) →
   (∀ k, is_Some (tftags.Removed old new !! k) →
         reserved AwsTagKeyPrefix k = true) →
   head r.2 = Some (CallUntag (UntagResourceInput.mk (Some identifier) [])))
  ∧
  (0 < size (tftags.Updated old new) →
   (∀ k, is_Some (tftags.Updated old new !! k) →
         reserved AwsTagKeyPrefix k = true) →
   (∀ e, r.1.1 ≠ Some (untagError identifier e)) →
   last r.2 = Some (CallTag (TagResourceInput.mk (Some identifier) []))).
Proof.
  intros r. subst r. split.
  - intros Hpos Hall.
    assert (untagRequest AwsTagKeyPrefix identifier old new
            = UntagResourceInput.mk (Some identifier) []) as <-.
    { unfold untagRequest, untagResourceInput.
      by rewrite (IgnoreAws_all_reserved _ Hall). }
    destruct (run_reconcile_path conn AwsTagKeyPrefix identifier old new σ);
      simpl; try lia; reflexivity.
  - intros Hpos Hall Hok.
    assert (tagRequest AwsTagKeyPrefix identifier old new
            = TagResourceInput.mk (Some identifier) []) as <-.
    { unfold tagRequest, tagResourceInput.
      by rewrite (IgnoreAws_all_reserved _ Hall). }
    destruct (run_reconcile_path conn AwsTagKeyPrefix identifier old new σ)
      as [| | e' ? ? ?| |]; simpl in *; try lia; try reflexivity.
    exfalso. by apply (Hok e').
Qed.

(** X11.  A key on which [old] and [new] agree is never sent: it is among
    neither the keys of the untag call nor the tags of the tag call. *)
Theorem UpdateTags_unchanged_not_sent old new σ k :
  old !! k = new !! k →
  let calls := (runUpdate (tftags.StringMap old) (tftags.StringMap new) σ).2 in
  (∀ input, CallUntag input ∈ calls →
     Some k ∉ UntagResourceInput.TagKeys input) ∧
  (∀ input tag, CallTag input ∈ calls →
     tag ∈ TagResourceInput.Tags input → Key tag ≠ Some k).
Proof.
  intros Heq calls. subst calls. split.
  - intros input [Hc|Hc]%UpdateTags_calls_requests; [|done].
    inversion Hc; subst; clear Hc.
    unfold untagRequest, untagResourceInput. simpl.
    intros (k' & [= <-] & [v Hv]%elem_of_Keys)%elem_of_StringSlice.
    apply IgnoreAws_lookup_Some in Hv as [[Ho Hn]%Removed_lookup_Some _].
    congruence.
  - intros input tag [Hc|Hc]%UpdateTags_calls_requests; [done|].
    inversion Hc; subst; clear Hc.
    unfold tagRequest, tagResourceInput. simpl.
    intros (k' & v & -> & Hv)%elem_of_Tags [= ->].
    apply IgnoreAws_lookup_Some in Hv as [[Hn Ho]%Updated_lookup_Some _].
    congruence.
Qed.

(** X12.  The two calls of one run never carry the same key: a key of
    the untag call is the key of no tag of the tag call. *)
Theorem UpdateTags_requests_disjoint old new σ
    (untag : UntagResourceInput.t) (tag : TagResourceInput.t) (t : Tag) :
  let calls := (runUpdate (tftags.StringMap old) (tftags.StringMap new) σ).2 in
  CallUntag untag ∈ calls → CallTag tag ∈ calls →
  t ∈ TagResourceInput.Tags tag →
  Key t ∉ UntagResourceInput.TagKeys untag.
Proof.
  intros calls. subst calls.
  intros [Hu|Hu]%UpdateTags_calls_requests; [|done].
  intros [Ht|Ht]%UpdateTags_calls_requests; [done|].
  inversion Hu; inversion Ht; subst; clear Hu Ht.
  unfold tagRequest, tagResourceInput, untagRequest, untagResourceInput.
  simpl. intros (k & v & -> & Hv)%elem_of_Tags.
  intros (k' & [= <-] & [w Hw]%elem_of_Keys)%elem_of_StringSlice.
  apply IgnoreAws_lookup_Some in Hv as [[Hn _]%Updated_lookup_Some _].
  apply IgnoreAws_lookup_Some in Hw as [[_ Hn']%Removed_lookup_Some _].
  congruence.
Qed.

(** X13.  With a nil or empty old map [UpdateTags] never issues the untag
    call, and with a nil or empty new map it never issues the tag call. *)
Theorem UpdateTags_nil_maps (oldTagsMap newTagsMap : tftags.TagsMap) σ :
  (tftags.New oldTagsMap = ∅ →
   let calls := (runUpdate oldTagsMap newTagsMap σ).2 in
   calls = [] ∨
   calls = [CallTag (tagRequest AwsTagKeyPrefix identifier ∅
                       (tftags.New newTagsMap))]) ∧
  (tftags.New newTagsMap = ∅ →
   let calls := (runUpdate oldTagsMap newTagsMap σ).2 in
   calls = [] ∨
   calls = [CallUntag (untagRequest AwsTagKeyPrefix identifier
                         (tftags.New oldTagsMap) ∅)]).
Proof.
  split; intros Hempty calls; subst calls.
  - assert (size (tftags.Removed (tftags.New oldTagsMap)
                    (tftags.New newTagsMap)) = 0) as Hr.
    { rewrite Hempty. unfold tftags.Removed.
      by rewrite map_filter_empty, map_size_empty. }
    destruct (run_UpdateTags_path conn AwsTagKeyPrefix identifier
                oldTagsMap newTagsMap σ); simpl; try lia; auto.
    right. by rewrite Hempty.
  - assert (size (tftags.Updated (tftags.New oldTagsMap)
                    (tftags.New newTagsMap)) = 0) as Hu.
    { rewrite Hempty. unfold tftags.Updated.
      by rewrite map_filter_empty, map_size_empty. }
    destruct (run_UpdateTags_path conn AwsTagKeyPrefix identifier
                oldTagsMap newTagsMap σ); simpl; try lia; auto.
    + right. by rewrite Hempty.
    + right. by rewrite Hempty.
Qed.

End Payloads.

Lemma UpdateTags_empty_requests_witness :
  head (Scenario.run_store Scenario.stack_only ∅).2
  = Some (CallUntag (UntagResourceInput.mk (Some Scenario.arn) [])) ∧
  last (Scenario.run_store (Scenario.created_by "me")
          (Scenario.created_by "")).2
  = Some (CallTag (TagResourceInput.mk (Some Scenario.arn) [])).
Proof.
  split.
  - apply (UpdateTags_empty_requests store_conn Scenario.AwsTagKeyPrefix
             Scenario.arn Scenario.stack_only ∅
             {[ Scenario.arn := Scenario.stack_only ]}).
    + vm_compute. lia.
    + intros k [v [Hv _]%Removed_lookup_Some].
      destruct (decide (k = "aws:cloudformation:stack-name")) as [->|Hk];
        [reflexivity|].
      unfold Scenario.stack_only in Hv.
      rewrite lookup_singleton_ne in Hv by done. discriminate Hv.
  - apply (UpdateTags_empty_requests store_conn Scenario.AwsTagKeyPrefix
             Scenario.arn (Scenario.created_by "me") (Scenario.created_by "")
             {[ Scenario.arn := Scenario.created_by "me" ]}).
    + vm_compute. lia.
    + intros k [v [Hv _]%Updated_lookup_Some].
      destruct (decide (k = "aws:createdBy")) as [->|Hk]; [reflexivity|].
      unfold Scenario.created_by in Hv.
      rewrite lookup_singleton_ne in Hv by done. discriminate Hv.
    + intros e H. vm_compute in H. discriminate H.
Defined.

Lemma UpdateTags_unchanged_not_sent_witness :
  (Some "env"
   ∉ UntagResourceInput.TagKeys
       (untagRequest Scenario.AwsTagKeyPrefix Scenario.arn
          Scenario.env_dev_temp Drift.env_dev_team)) ∧
  (Scenario.run_store Scenario.env_dev_temp Drift.env_dev_team).2
  = [CallUntag (untagRequest Scenario.AwsTagKeyPrefix Scenario.arn
                  Scenario.env_dev_temp Drift.env_dev_team);
     CallTag (tagRequest Scenario.AwsTagKeyPrefix Scenario.arn
                Scenario.env_dev_temp Drift.env_dev_team)].
Proof.
  destruct (UpdateTags_unchanged_not_sent store_conn Scenario.AwsTagKeyPrefix
              Scenario.arn Scenario.env_dev_temp Drift.env_dev_team
              {[ Scenario.arn := Scenario.env_dev_temp ]} "env")
    as [Huntag _]; [reflexivity|].
  split; [|reflexivity].
  apply Huntag. vm_compute. apply list_elem_of_here.
Defined.

Lemma UpdateTags_requests_disjoint_witness :
  Some "team"
  ∉ UntagResourceInput.TagKeys
      (untagRequest Scenario.AwsTagKeyPrefix Scenario.arn
         Scenario.env_dev_temp Scenario.env_prod_team).
Proof.
  apply (UpdateTags_requests_disjoint store_conn Scenario.AwsTagKeyPrefix
           Scenario.arn Scenario.env_dev_temp Scenario.env_prod_team
           {[ Scenario.arn := Scenario.env_dev_temp ]}
           (untagRequest Scenario.AwsTagKeyPrefix Scenario.arn
              Scenario.env_dev_temp Scenario.env_prod_team)
           (tagRequest Scenario.AwsTagKeyPrefix Scenario.arn
              Scenario.env_dev_temp Scenario.env_prod_team)
           (mkTag (Some "team") (Some "x"))).
  - vm_compute. apply list_elem_of_here.
  - vm_compute. apply list_elem_of_further, list_elem_of_here.
  - vm_compute. apply list_elem_of_further, list_elem_of_here.
Defined.

Lemma UpdateTags_nil_maps_witness :
  (run store_conn
       (UpdateTags Scenario.AwsTagKeyPrefix Scenario.arn tftags.NilMap
          (tftags.StringMap Scenario.env_dev)) ∅).2
  = [CallTag (tagRequest Scenario.AwsTagKeyPrefix Scenario.arn ∅
                Scenario.env_dev)] ∧
  (run store_conn
       (UpdateTags Scenario.AwsTagKeyPrefix Scenario.arn
          (tftags.StringMap Scenario.env_dev) tftags.NilMap)
       {[ Scenario.arn := Scenario.env_dev ]}).2
  = [CallUntag (untagRequest Scenario.AwsTagKeyPrefix Scenario.arn
                  Scenario.env_dev ∅)].
Proof.
  destruct (UpdateTags_nil_maps store_conn Scenario.AwsTagKeyPrefix
              Scenario.arn tftags.NilMap (tftags.StringMap Scenario.env_dev)
              ∅) as [Hold _].
  destruct (UpdateTags_nil_maps store_conn Scenario.AwsTagKeyPrefix
              Scenario.arn (tftags.StringMap Scenario.env_dev) tftags.NilMap
              {[ Scenario.arn := Scenario.env_dev ]}) as [_ Hnew].
  split.
  - destruct (Hold eq_refl) as [H|H]; [|exact H].
    vm_compute in H. discriminate H.
  - destruct (Hnew eq_refl) as [H|H]; [|exact H].
    vm_compute in H. discriminate H.
Defined.

(** ** What a probe returns *)

Section ProbeOutcomes.

Variable FirehoseConn : Type.
Variable FindDeliveryStreamByName :
  FirehoseConn → string → option DeliveryStreamDescription * option error.
Variable FindDeliveryStreamEncryptionConfigurationByName :
  FirehoseConn → string →
  option DeliveryStreamEncryptionConfiguration * option error.

(** X14.  A probe panics exactly when its finder returns neither an
    output nor an error; and it returns a snapshot exactly when the finder
    returns an output without an error, the snapshot being that output and
    the status label the output's status, read as the empty string when
    the status pointer is nil. *)
Theorem status_outcomes (conn : FirehoseConn) (name : string) :
  let stream := statusDeliveryStream FirehoseConn FindDeliveryStreamByName in
  let encryption :=
    statusDeliveryStreamEncryptionConfiguration
      FirehoseConn FindDeliveryStreamEncryptionConfigurationByName in
  let found := FindDeliveryStreamByName conn name in
  let foundEnc :=
    FindDeliveryStreamEncryptionConfigurationByName conn name in
  (stream conn name () = Panics ↔ found = (None, None)) ∧
  (encryption conn name () = Panics ↔ foundEnc = (None, None)) ∧
  (∀ snap label err,
     stream conn name () = Returns (Some snap, label, err) ↔
     ∃ o, found = (Some o, None) ∧ snap = ofDeliveryStream o ∧
          label = aws.StringValue (DeliveryStreamStatus o) ∧ err = None) ∧
  (∀ snap label err,
     encryption conn name () = Returns (Some snap, label, err) ↔
     ∃ o, foundEnc = (Some o, None) ∧ snap = ofEncryptionConfiguration o ∧
          label = aws.StringValue (Status o) ∧ err = None).
Proof.
  intros stream encryption found foundEnc.
  subst stream encryption found foundEnc.
  unfold statusDeliveryStream, statusDeliveryStreamEncryptionConfiguration.
  destruct (FindDeliveryStreamByName conn name) as [output err].
  destruct (FindDeliveryStreamEncryptionConfigurationByName conn name)
    as [outputEnc errEnc].
  split; [|split; [|split]].
  - destruct err as [e|], output as [o|]; simpl;
      try destruct (tfresource.IsNotFound e); split; intros H;
      try discriminate H; reflexivity.
  - destruct errEnc as [e|], outputEnc as [o|]; simpl;
      try destruct (tfresource.IsNotFound e); split; intros H;
      try discriminate H; reflexivity.
  - intros snap label e'. split.
    + destruct err as [e|], output as [o|]; simpl;
        try destruct (tfresource.IsNotFound e); intros H;
        try discriminate H.
      inversion H; subst. by exists o.
    + intros (o & [= -> ->] & -> & -> & ->). reflexivity.
  - intros snap label e'. split.
    + destruct errEnc as [e|], outputEnc as [o|]; simpl;
        try destruct (tfresource.IsNotFound e); intros H;
        try discriminate H.
      inversion H; subst. by exists o.
    + intros (o & [= -> ->] & -> & -> & ->). reflexivity.
Qed.

End ProbeOutcomes.

Lemma status_outcomes_witness :
  statusDeliveryStream unit Drift.findNothing () "s" () = Panics ∧
  statusDeliveryStreamEncryptionConfiguration
    unit Drift.findNoEncryption () "s" () = Panics ∧
  statusDeliveryStream (list string) Scenario.findStream ["s"] "s" ()
  = Returns (Some (ofDeliveryStream
                     (mkDeliveryStreamDescription (Some "s") (Some "ACTIVE"))),
             "ACTIVE", None).
Proof.
  destruct (status_outcomes unit Drift.findNothing Drift.findNoEncryption
              () "s") as (Hs & He & _).
  destruct (status_outcomes (list string) Scenario.findStream
              Scenario.findEncryption ["s"] "s") as (_ & _ & Hsnap & _).
  split; [|split].
  - apply Hs. reflexivity.
  - apply He. reflexivity.
  - apply Hsnap. eexists. split; [reflexivity|]. by repeat split.
Defined.

(** ** The converters of the SageMaker endpoint configuration *)

Section Converters.

Implicit Types (m : gmap string value) (k : string).

(** Looking a key up in a map built by the assignments of a flattener. *)
Ltac lookups H :=
  repeat first
    [ rewrite lookup_insert_eq in H
    | rewrite lookup_insert_ne in H by done
    | rewrite lookup_empty in H ].

Ltac guards :=
  try reflexivity; repeat case_guard; try done; exfalso; tauto.

Ltac lookups_goal :=
  repeat first
    [ rewrite lookup_insert_eq
    | rewrite lookup_insert_ne by done
    | rewrite lookup_empty ].

Lemma expand_flatten_NotificationConfig_id
    (config : option sagemaker.AsyncInferenceNotificationConfig) :
  expandSagemakerEndpointConfigNotificationConfig
    (asInterfaces (flattenSagemakerEndpointConfigNotificationConfig config))
  = Returns config.
Proof.
  destruct config as [[[e|] [s|]]|]; [| | | |reflexivity];
    unfold expandSagemakerEndpointConfigNotificationConfig; simpl;
    unfold setIfNotNil; simpl; lookups_goal; reflexivity.
Qed.

Lemma flattenNotificationConfig_inj
    (c1 c2 : option sagemaker.AsyncInferenceNotificationConfig) :
  flattenSagemakerEndpointConfigNotificationConfig c1
  = flattenSagemakerEndpointConfigNotificationConfig c2 →
  c1 = c2.
Proof.
  intros H.
  assert (Returns c1 = Returns c2) as [= ->]; [|done].
  by rewrite <-(expand_flatten_NotificationConfig_id c1), H,
    expand_flatten_NotificationConfig_id.
Qed.

(** X15.  Expanding what the flattener produced for a notification
    configuration gives the configuration back, nil for nil, with every
    nil topic still nil; so the flattener tells any two notification
    configurations apart. *)
Theorem expand_flatten_NotificationConfig
    (config : option sagemaker.AsyncInferenceNotificationConfig) :
  expandSagemakerEndpointConfigNotificationConfig
    (asInterfaces (flattenSagemakerEndpointConfigNotificationConfig config))
  = Returns config ∧
  (∀ other,
     flattenSagemakerEndpointConfigNotificationConfig config
     = flattenSagemakerEndpointConfigNotificationConfig other →
     config = other).
Proof.
  split; [apply expand_flatten_NotificationConfig_id|].
  apply flattenNotificationConfig_inj.
Qed.

Lemma outcome_bind_Returns {A B : Type} (f : A → outcome B) (o : outcome A)
    (b : B) :
  o ≫= f = Returns b → ∃ a, o = Returns a ∧ f a = Returns b.
Proof. destruct o as [a|]; [|discriminate]. intros H. by exists a. Qed.

Lemma assertString_Returns (v : option value) (s : string) :
  assertString v = Returns s → v = Some (VString s).
Proof. destruct v as [[]|]; try discriminate. by intros [= ->]. Qed.

(** The topic a configuration map gives, when it does not panic. *)
Lemma topic_Returns m k (topic : option string) :
  match m !! k with
  | Some v => s ← assertString (Some v); Returns (aws.String s)
  | None => Returns None
  end = Returns topic →
  m !! k = VString <$> topic.
Proof.
  destruct (m !! k) as [v|]; [|by intros [= <-]].
  intros (s & ->%assertString_Returns & [= <-])%outcome_bind_Returns.
  reflexivity.
Qed.

(** X16.  Flattening what the expander made of a notification
    configuration gives back the first map of the configuration, cut
    down to the two topics: whenever the expander does not panic, its
    result is non-nil and no topic is lost or changed on the way. *)
Theorem flatten_expand_NotificationConfig m (rest : list value)
    (config : option sagemaker.AsyncInferenceNotificationConfig) :
  expandSagemakerEndpointConfigNotificationConfig (VMap m :: rest)
  = Returns config →
  is_Some config ∧
  flattenSagemakerEndpointConfigNotificationConfig config
  = [filter (λ kv, kv.1 = "error_topic" ∨ kv.1 = "success_topic") m].
Proof.
  unfold expandSagemakerEndpointConfigNotificationConfig. simpl.
  intros (e & He%topic_Returns & (s & Hs%topic_Returns & [= <-])
            %outcome_bind_Returns)%outcome_bind_Returns.
  split; [by eexists|]. simpl. f_equal.
  apply map_eq. intros k. rewrite map_lookup_filter.
  destruct (decide (k = "success_topic")) as [->|Hks].
  - rewrite Hs. destruct s as [s|]; simpl.
    + lookups_goal. guards.
    + destruct e; simpl; lookups_goal; reflexivity.
  - destruct (decide (k = "error_topic")) as [->|Hke].
    + rewrite He. destruct s as [s|], e as [e|]; simpl; lookups_goal;
        guards.
    + transitivity (@None value).
      * destruct s as [s|], e as [e|]; simpl; lookups_goal; reflexivity.
      * destruct (m !! k); simpl; [|done].
        guards.
Qed.

Lemma expandSagemakerCaptureOptions_cons m (rest : list value) :
  expandSagemakerCaptureOptions (VMap m :: rest)
  = mode ← assertString (m !! "capture_mode");
    containers ← expandSagemakerCaptureOptions rest;
    Returns (sagemaker.mkCaptureOption (aws.String mode) :: containers).
Proof. reflexivity. Qed.

(** X17.  Expanding what the flattener produced for a list of capture
    options gives the list back with every nil capture mode replaced by
    the empty string; so it gives the list itself when no capture mode is
    nil. *)
Theorem expand_flatten_CaptureOptions (l : list sagemaker.CaptureOption) :
  expandSagemakerCaptureOptions
    (asInterfaces (flattenSagemakerCaptureOptions l))
  = Returns
      (map (λ o, sagemaker.mkCaptureOption
                   (Some (aws.StringValue (sagemaker.CaptureMode o)))) l) ∧
  (Forall (λ o, is_Some (sagemaker.CaptureMode o)) l →
   expandSagemakerCaptureOptions
     (asInterfaces (flattenSagemakerCaptureOptions l))
   = Returns l).
Proof.
  assert (expandSagemakerCaptureOptions
            (asInterfaces (flattenSagemakerCaptureOptions l))
          = Returns
              (map (λ o, sagemaker.mkCaptureOption
                           (Some (aws.StringValue (sagemaker.CaptureMode o))))
                   l)) as Hexpand.
  { induction l as [|o l IH]; [done|].
    change (asInterfaces (flattenSagemakerCaptureOptions (o :: l)))
      with (VMap (<["capture_mode" :=
                      VString (aws.StringValue (sagemaker.CaptureMode o))]> ∅)
            :: asInterfaces (flattenSagemakerCaptureOptions l)).
    rewrite expandSagemakerCaptureOptions_cons, lookup_insert_eq, IH.
    reflexivity. }
  split; [exact Hexpand|].
  intros Hsome. rewrite Hexpand. f_equal. clear Hexpand.
  induction Hsome as [|[mode] l [s Hs] _ IH]; [done|].
  simpl in Hs. subst. cbn. f_equal. exact IH.
Qed.

(** X18.  Whenever [expandSagemakerCaptureOptions] does not panic, every
    element of the configuration is a map, the result has one capture
    option per element, in order and none with a nil capture mode, and
    flattening it gives back each map cut down to its capture mode. *)
Theorem flatten_expand_CaptureOptions (configured : list value)
    (containers : list sagemaker.CaptureOption) :
  expandSagemakerCaptureOptions configured = Returns containers →
  ∃ maps : list (gmap string value),
    configured = asInterfaces maps ∧
    length containers = length configured ∧
    Forall (λ o, is_Some (sagemaker.CaptureMode o)) containers ∧
    flattenSagemakerCaptureOptions containers
    = map (filter (λ kv, kv.1 = "capture_mode")) maps.
Proof.
  revert containers.
  induction configured as [|lRaw rest IH]; intros containers.
  - intros [= <-]. by exists [].
  - intros H. destruct lRaw as [| | | | |data|]; try discriminate H.
    rewrite expandSagemakerCaptureOptions_cons in H.
    apply outcome_bind_Returns in H
      as (mode & Hmode%assertString_Returns
          & (tail & Htail & [= <-])%outcome_bind_Returns).
    destruct (IH tail Htail) as (maps & -> & Hlen & Hsome & Hflat).
    exists (data :: maps). split; [done|]. split; [simpl; by rewrite Hlen|].
    split; [constructor; [by eexists|done]|].
    simpl. rewrite Hflat. f_equal.
    apply map_eq. intros k. rewrite map_lookup_filter.
    destruct (decide (k = "capture_mode")) as [->|Hk].
    + rewrite Hmode, lookup_insert_eq. simpl.
      guards.
    + rewrite lookup_insert_ne, lookup_empty by done.
      destruct (data !! k); simpl; [|done]. guards.
Qed.


Lemma flattenClientConfig_inj
    (c1 c2 : option sagemaker.AsyncInferenceClientConfig) :
  flattenSagemakerEndpointConfigClientConfig c1
  = flattenSagemakerEndpointConfigClientConfig c2 →
  c1 = c2.
Proof.
  destruct c1 as [[n1]|], c2 as [[n2]|]; try discriminate; [|done].
  intros [= H].
  apply (f_equal (lookup "max_concurrent_invocations_per_instance")) in H.
  destruct n1, n2; simpl in H; lookups H; congruence.
Qed.

Lemma flattenOutputConfig_inj
    (c1 c2 : option sagemaker.AsyncInferenceOutputConfig) :
  (∀ o, c1 = Some o → is_Some (sagemaker.S3OutputPath o)) →
  (∀ o, c2 = Some o → is_Some (sagemaker.S3OutputPath o)) →
  flattenSagemakerEndpointConfigOutputConfig c1
  = flattenSagemakerEndpointConfigOutputConfig c2 →
  c1 = c2.
Proof.
  destruct c1 as [[k1 n1 p1]|], c2 as [[k2 n2 p2]|]; try discriminate;
    [|done].
  intros H1 H2 [= H].
  destruct (H1 _ eq_refl) as [s1 Hs1], (H2 _ eq_refl) as [s2 Hs2].
  simpl in Hs1, Hs2. subst p1 p2.
  pose proof (f_equal (lookup "s3_output_path") H) as Hpath.
  pose proof (f_equal (lookup "kms_key_id") H) as Hkms.
  pose proof (f_equal (lookup "notification_config") H) as Hnotif.
  clear H H1 H2. unfold setIfNotNil in *. simpl in *.
  assert (k1 = k2) as ->.
  { destruct k1, k2, n1, n2; simpl in Hkms; lookups Hkms; congruence. }
  assert (s1 = s2) as ->.
  { destruct k2, n1, n2; simpl in Hpath; lookups Hpath; congruence. }
  assert (n1 = n2) as ->; [|done].
  destruct n1 as [a|], n2 as [b|], k2; cbv beta iota in Hnotif;
    lookups Hnotif; try discriminate; try done;
    apply flattenNotificationConfig_inj; congruence.
Qed.

(** X19.  The flattener of the asynchronous inference configuration loses
    nothing: two configurations whose output location is set and that
    flatten to the same maps are the same configuration, down to which
    optional blocks and fields are nil. *)
Theorem flattenAsyncInferenceConfig_inj
    (c1 c2 : option sagemaker.AsyncInferenceConfig) :
  hasOutputPath c1 → hasOutputPath c2 →
  flattenSagemakerEndpointConfigAsyncInferenceConfig c1
  = flattenSagemakerEndpointConfigAsyncInferenceConfig c2 →
  c1 = c2.
Proof.
  destruct c1 as [[cc1 oc1]|], c2 as [[cc2 oc2]|]; try discriminate;
    [|done].
  simpl. intros H1 H2 [= H].
  pose proof (f_equal (lookup "client_config") H) as Hclient.
  pose proof (f_equal (lookup "output_config") H) as Houtput.
  clear H. unfold setIfNotNil in *.
  assert (cc1 = cc2) as ->.
  { destruct cc1 as [a|], cc2 as [b|], oc1, oc2;
      cbv beta iota in Hclient; lookups Hclient;
      try discriminate; try done;
      apply flattenClientConfig_inj; congruence. }
  assert (oc1 = oc2) as ->; [|done].
  destruct oc1 as [a|], oc2 as [b|], cc2;
    cbv beta iota in Houtput; lookups Houtput;
    try discriminate; try done;
    (apply flattenOutputConfig_inj; [by intros ? [= <-]..|congruence]).
Qed.

(** X20.  The flattener of the output configuration always sets the
    output location, also when the pointer is nil, and reads a nil
    pointer as the empty string: a configuration with a nil output
    location and the same configuration with an empty one flatten to the
    same map. *)
Theorem flattenOutputConfig_nil_path
    (config : sagemaker.AsyncInferenceOutputConfig) :
  (∃ cfg,
     flattenSagemakerEndpointConfigOutputConfig (Some config) = [cfg] ∧
     cfg !! "s3_output_path"
     = Some (VString (aws.StringValue (sagemaker.S3OutputPath config)))) ∧
  (sagemaker.S3OutputPath config = None →
   flattenSagemakerEndpointConfigOutputConfig (Some config)
   = flattenSagemakerEndpointConfigOutputConfig
       (Some (sagemaker.mkAsyncInferenceOutputConfig
                (sagemaker.KmsKeyId config)
                (sagemaker.NotificationConfig config) (Some "")))).
Proof.
  destruct config as [k n p]. split.
  - eexists. split; [reflexivity|].
    unfold setIfNotNil. simpl. destruct k, n; lookups_goal; reflexivity.
  - simpl. by intros ->.
Qed.

Ltac never_nil H :=
  repeat (apply outcome_bind_Returns in H as (? & _ & H)); discriminate H.

(** X21.  Each expander of the asynchronous inference configuration
    returns nil exactly on the empty configuration: on a configuration
    with a first element it panics or returns a struct. *)
Theorem expand_nil_iff_empty (configured : list value) :
  (expandSagemakerEndpointConfigAsyncInferenceConfig configured
   = Returns None ↔ configured = []) ∧
  (expandSagemakerEndpointConfigClientConfig configured
   = Returns None ↔ configured = []) ∧
  (expandSagemakerEndpointConfigOutputConfig configured
   = Returns None ↔ configured = []) ∧
  (expandSagemakerEndpointConfigNotificationConfig configured
   = Returns None ↔ configured = []).
Proof.
  destruct configured as [|first rest].
  - by repeat split.
  - repeat split; try discriminate.
    + unfold expandSagemakerEndpointConfigAsyncInferenceConfig.
      intros H. never_nil H.
    + unfold expandSagemakerEndpointConfigClientConfig.
      intros H. never_nil H.
    + unfold expandSagemakerEndpointConfigOutputConfig.
      intros H. never_nil H.
    + unfold expandSagemakerEndpointConfigNotificationConfig.
      intros H. never_nil H.
Qed.

Lemma expandOutputConfig_path (configured : list value)
    (output : sagemaker.AsyncInferenceOutputConfig) :
  expandSagemakerEndpointConfigOutputConfig configured
  = Returns (Some output) →
  ∃ m rest p,
    configured = VMap m :: rest ∧
    m !! "s3_output_path" = Some (VString p) ∧
    sagemaker.S3OutputPath output = Some p.
Proof.
  destruct configured as [|first rest]; [discriminate|].
  unfold expandSagemakerEndpointConfigOutputConfig. intros H.
  apply outcome_bind_Returns in H as (m & Hm & H).
  apply outcome_bind_Returns in H as (p & Hp%assertString_Returns & H).
  apply outcome_bind_Returns in H as (k & _ & H).
  apply outcome_bind_Returns in H as (n & _ & [= <-]).
  destruct first; try discriminate Hm. injection Hm as ->.
  by exists m, rest, p.
Qed.

(** X22.  Whatever the expander of the asynchronous inference
    configuration returns has its output location set: an output
    configuration without the key [s3_output_path], or with a value there
    that is not a string, makes it panic, so the result, when there is
    one and it has an output configuration, carries the configured
    string. *)
Theorem expandAsyncInferenceConfig_hasOutputPath (configured : list value)
    (config : option sagemaker.AsyncInferenceConfig) :
  expandSagemakerEndpointConfigAsyncInferenceConfig configured
  = Returns config →
  hasOutputPath config ∧
  ∀ c output,
    config = Some c → sagemaker.OutputConfig c = Some output →
    ∃ m l blocks rest p,
      configured = VMap m :: rest ∧
      m !! "output_config" = Some (VList (VMap l :: blocks)) ∧
      l !! "s3_output_path" = Some (VString p) ∧
      sagemaker.S3OutputPath output = Some p.
Proof.
  destruct configured as [|first rest]; [by intros [= <-]|].
  unfold expandSagemakerEndpointConfigAsyncInferenceConfig. intros H.
  apply outcome_bind_Returns in H as (m & Hm & H).
  apply outcome_bind_Returns in H as (cc & _ & H).
  apply outcome_bind_Returns in H as (oc & Hoc & [= <-]).
  destruct first; try discriminate Hm. injection Hm as ->.
  assert (∀ output, oc = Some output →
            ∃ l blocks p,
              m !! "output_config" = Some (VList (VMap l :: blocks)) ∧
              l !! "s3_output_path" = Some (VString p) ∧
              sagemaker.S3OutputPath output = Some p) as Hout.
  { intros output ->.
    destruct (m !! "output_config") as [v|]; [|discriminate Hoc].
    apply outcome_bind_Returns in Hoc as (l & Hl & Hoc).
    destruct v; try discriminate Hl. injection Hl as ->.
    destruct (0 <? length l)%nat; [|discriminate Hoc].
    apply expandOutputConfig_path in Hoc as (l' & blocks & p & -> & ? & ?).
    by exists l', blocks, p. }
  split.
  - simpl. destruct oc as [output|]; [|done].
    destruct (Hout output eq_refl) as (? & ? & p & _ & _ & ->). by eexists.
  - intros c output [= <-] Hc. simpl in Hc.
    destruct (Hout output Hc) as (l & blocks & p & ? & ? & ?).
    by exists m, l, blocks, rest, p.
Qed.

End Converters.

Lemma KeyValueTags_size_witness :
  NoDup ((λ tag, aws.StringValue (Key tag)) <$> Configured.sagemaker_tags) ∧
  size (KeyValueTags Configured.sagemaker_tags)
  = length Configured.sagemaker_tags.
Proof.
  assert (NoDup ((λ tag, aws.StringValue (Key tag))
                   <$> Configured.sagemaker_tags)) as Hnodup.
  { simpl. repeat constructor; rewrite ?elem_of_cons, ?elem_of_nil;
      intros H; decompose [or] H; discriminate || done. }
  split; [exact Hnodup|].
  exact (proj2 (KeyValueTags_size Configured.sagemaker_tags) Hnodup).
Defined.

Lemma flatten_expand_NotificationConfig_witness :
  expandSagemakerEndpointConfigNotificationConfig
    [VMap Configured.notification]
  = Returns (Some Configured.notificationConfig) ∧
  is_Some (Some Configured.notificationConfig) ∧
  flattenSagemakerEndpointConfigNotificationConfig
    (Some Configured.notificationConfig)
  = [filter (λ kv, kv.1 = "error_topic" ∨ kv.1 = "success_topic")
       Configured.notification].
Proof.
  assert (expandSagemakerEndpointConfigNotificationConfig
            [VMap Configured.notification]
          = Returns (Some Configured.notificationConfig)) as Hexpand
    by reflexivity.
  split; [exact Hexpand|].
  exact (flatten_expand_NotificationConfig _ _ _ Hexpand).
Defined.

Lemma expand_flatten_CaptureOptions_witness :
  Forall (λ o, is_Some (sagemaker.CaptureMode o)) Configured.captureOptions ∧
  expandSagemakerCaptureOptions
    (asInterfaces (flattenSagemakerCaptureOptions Configured.captureOptions))
  = Returns Configured.captureOptions.
Proof.
  assert (Forall (λ o, is_Some (sagemaker.CaptureMode o))
            Configured.captureOptions) as Hsome.
  { repeat constructor; simpl; eexists; reflexivity. }
  split; [exact Hsome|].
  exact (proj2 (expand_flatten_CaptureOptions _) Hsome).
Defined.

Lemma flatten_expand_CaptureOptions_witness :
  expandSagemakerCaptureOptions [VMap Configured.captureBlock]
  = Returns [sagemaker.mkCaptureOption (Some "Input")] ∧
  ∃ maps : list (gmap string value),
    [VMap Configured.captureBlock] = asInterfaces maps ∧
    length [sagemaker.mkCaptureOption (Some "Input")]
    = length [VMap Configured.captureBlock] ∧
    Forall (λ o, is_Some (sagemaker.CaptureMode o))
      [sagemaker.mkCaptureOption (Some "Input")] ∧
    flattenSagemakerCaptureOptions [sagemaker.mkCaptureOption (Some "Input")]
    = map (filter (λ kv, kv.1 = "capture_mode")) maps.
Proof.
  assert (expandSagemakerCaptureOptions [VMap Configured.captureBlock]
          = Returns [sagemaker.mkCaptureOption (Some "Input")]) as Hexpand
    by reflexivity.
  split; [exact Hexpand|].
  exact (flatten_expand_CaptureOptions _ _ Hexpand).
Defined.

Lemma flattenAsyncInferenceConfig_inj_witness :
  hasOutputPath (Some Configured.asyncInferenceConfig) ∧
  flattenSagemakerEndpointConfigAsyncInferenceConfig
    (Some Configured.asyncInferenceConfig)
  = flattenSagemakerEndpointConfigAsyncInferenceConfig
      (Some Configured.asyncInferenceConfig) ∧
  Some Configured.asyncInferenceConfig = Some Configured.asyncInferenceConfig.
Proof.
  assert (hasOutputPath (Some Configured.asyncInferenceConfig)) as Hpath.
  { simpl. eexists. reflexivity. }
  split; [exact Hpath|]. split; [reflexivity|].
  exact (flattenAsyncInferenceConfig_inj _ _ Hpath Hpath eq_refl).
Defined.

Lemma flattenOutputConfig_nil_path_witness :
  flattenSagemakerEndpointConfigOutputConfig
    (Some (sagemaker.mkAsyncInferenceOutputConfig (Some "key") None None))
  = flattenSagemakerEndpointConfigOutputConfig
      (Some (sagemaker.mkAsyncInferenceOutputConfig
               (Some "key") None (Some ""))).
Proof.
  exact (proj2 (flattenOutputConfig_nil_path
                  (sagemaker.mkAsyncInferenceOutputConfig
                     (Some "key") None None)) eq_refl).
Defined.

Lemma expand_flatten_NotificationConfig_witness :
  flattenSagemakerEndpointConfigNotificationConfig
    (Some Configured.notificationConfig)
  = flattenSagemakerEndpointConfigNotificationConfig
      (Some Configured.notificationConfig) ∧
  Some Configured.notificationConfig = Some Configured.notificationConfig.
Proof.
  split; [reflexivity|].
  exact (proj2 (expand_flatten_NotificationConfig
                  (Some Configured.notificationConfig)) _ eq_refl).
Defined.

Lemma expandAsyncInferenceConfig_hasOutputPath_witness :
  expandSagemakerEndpointConfigAsyncInferenceConfig
    [VMap Configured.asyncInference]
  = Returns Configured.asyncInferenceExpanded ∧
  hasOutputPath Configured.asyncInferenceExpanded.
Proof.
  assert (expandSagemakerEndpointConfigAsyncInferenceConfig
            [VMap Configured.asyncInference]
          = Returns Configured.asyncInferenceExpanded) as Hexpand
    by reflexivity.
  split; [exact Hexpand|].
  exact (proj1 (expandAsyncInferenceConfig_hasOutputPath _ _ Hexpand)).
Defined.
